(** * cleaner_threaded.py: a shallow embedding and its verified properties

    The development follows [src/cleaner_threaded.py]:

    - Python strings are lists of Unicode code points ([pystr]);
    - [pathlib] paths are lists of components, with [name], [suffix],
      [stem], [parent], [joinpath] and [with_name] as pathlib (Python
      3.9 to 3.13) computes them;
    - the file system is a finite map from paths to nodes, and the calls
      the program makes into it ([exists], [rename], [mkdir], ...) are
      functions on that map, returning the exception Python raises;
    - methods of [CleanFolder] are computations in a state-and-exception
      monad over the object's fields and the file system; loops that the
      source leaves unbounded take a fuel argument;
    - the thread pool is modelled by its queue of submitted tasks, run in
      submission order when the coordinator waits for them. *)

From Stdlib Require Import NArith DecimalNat Ascii String Sorted.
From stdpp Require Import base option list strings gmap sets.

Local Open Scope N_scope.

(** ** Python strings *)

(** A [str] is a sequence of code points. *)
Abbreviation pystr := (list N).

(** [u "abc"] is the [str] of an ASCII literal. *)
Definition u (s : string) : pystr :=
  map N_of_ascii (String.list_ascii_of_string s).

(** The characters of the class [[A-Za-z0-9_]]. *)
Definition is_digit (c : N) : bool := (48 <=? c) && (c <=? 57).
Definition is_ascii_upper (c : N) : bool := (65 <=? c) && (c <=? 90).
Definition is_ascii_lower (c : N) : bool := (97 <=? c) && (c <=? 122).
Definition is_ascii_alnum (c : N) : bool :=
  is_digit c || is_ascii_upper c || is_ascii_lower c.
Definition is_word_char (c : N) : bool := is_ascii_alnum c || (c =? 95).

(** [str.upper] and [str.lower] on ASCII strings. *)
Definition ascii_upper_char (c : N) : N := if is_ascii_lower c then c - 32 else c.
Definition ascii_lower_char (c : N) : N := if is_ascii_upper c then c + 32 else c.
Definition ascii_upper (s : pystr) : pystr := map ascii_upper_char s.
Definition ascii_lower (s : pystr) : pystr := map ascii_lower_char s.

(** [str(idx)] for a non-negative [int]: the decimal digits. *)
Fixpoint uint_digits (d : Decimal.uint) : pystr :=
  match d with
  | Decimal.Nil => []
  | Decimal.D0 d => 48 :: uint_digits d
  | Decimal.D1 d => 49 :: uint_digits d
  | Decimal.D2 d => 50 :: uint_digits d
  | Decimal.D3 d => 51 :: uint_digits d
  | Decimal.D4 d => 52 :: uint_digits d
  | Decimal.D5 d => 53 :: uint_digits d
  | Decimal.D6 d => 54 :: uint_digits d
  | Decimal.D7 d => 55 :: uint_digits d
  | Decimal.D8 d => 56 :: uint_digits d
  | Decimal.D9 d => 57 :: uint_digits d
  end.

Definition str (idx : nat) : pystr := uint_digits (Nat.to_uint idx).

(** [s.rfind(c)]: the index of the last occurrence, [None] for [-1]. *)
Fixpoint rfind (c : N) (s : pystr) : option nat :=
  match s with
  | [] => None
  | x :: t =>
      match rfind c t with
      | Some i => Some (S i)
      | None => if x =? c then Some 0%nat else None
      end
  end.

(** [s.removesuffix(t)]. *)
Definition removesuffix (s t : pystr) : pystr :=
  if decide (drop (length s - length t) s = t)
  then take (length s - length t) s else s.

(** [s.removeprefix(".")], the only prefix the program removes. *)
Definition removeprefix_dot (s : pystr) : pystr :=
  match s with
  | 46 :: t => t
  | _ => s
  end.

(** [len(os.fsencode(s))]: the bytes of the name as the file system
    gets it, in UTF-8. *)
Definition utf8_length (s : pystr) : nat :=
  sum_list (map (λ c, if c <? 128 then 1%nat
                      else if c <? 2048 then 2%nat
                      else if c <? 65536 then 3%nat else 4%nat) s).

(** ** The Unicode database

    [str.isalnum] and [str.upper] consult the Unicode character database
    for arbitrary input, so the program is parameterised by them. *)
Class Unicode := {
  (** [chr(c).isalnum()] *)
  isalnum : N → bool;
  (** [s.upper()] *)
  str_upper : pystr → pystr;
  (** [s.lower()] *)
  str_lower : pystr → pystr
}.

(** A database covering Basic Latin, Latin-1 Supplement and the Cyrillic
    block; code points of other blocks are left as they are and count as
    not alphanumeric. It instantiates the development on concrete runs. *)
Definition py_isalnum (c : N) : bool :=
  is_ascii_alnum c
  || (c =? 170) || (c =? 178) || (c =? 179) || (c =? 181)
  || (c =? 185) || (c =? 186) || ((188 <=? c) && (c <=? 190))
  || ((192 <=? c) && (c <=? 214)) || ((216 <=? c) && (c <=? 246))
  || ((248 <=? c) && (c <=? 255))
  || ((1024 <=? c) && (c <=? 1153)) || ((1162 <=? c) && (c <=? 1279)).

Definition py_upper_char (c : N) : pystr :=
  if is_ascii_lower c then [c - 32]
  else if c =? 181 then [924]
  else if c =? 223 then [83; 83]
  else if c =? 255 then [376]
  else if (224 <=? c) && (c <=? 254) && negb (c =? 247) then [c - 32]
  else if (1072 <=? c) && (c <=? 1103) then [c - 32]
  else if (1104 <=? c) && (c <=? 1119) then [c - 80]
  else if c =? 1169 then [1168]
  else [c].

Definition py_lower_char (c : N) : pystr :=
  if is_ascii_upper c then [c + 32]
  else if (192 <=? c) && (c <=? 222) && negb (c =? 215) then [c + 32]
  else if (1040 <=? c) && (c <=? 1071) then [c + 32]
  else if (1024 <=? c) && (c <=? 1039) then [c + 80]
  else if c =? 1168 then [1169]
  else [c].

Instance py_unicode : Unicode := {|
  isalnum := py_isalnum;
  str_upper := λ s, concat (map py_upper_char s);
  str_lower := λ s, concat (map py_lower_char s)
|}.

(** ** class Normalize *)
Module Normalize.

(** ["абвгдеёжзийклмнопрстуфхцчшщъыьэюяєіїґ"] *)
Definition CYRILLIC_SYMBOLS : pystr :=
  [1072; 1073; 1074; 1075; 1076; 1077; 1105; 1078; 1079; 1080; 1081;
   1082; 1083; 1084; 1085; 1086; 1087; 1088; 1089; 1090; 1091; 1092;
   1093; 1094; 1095; 1096; 1097; 1098; 1099; 1100; 1101; 1102; 1103;
   1108; 1110; 1111; 1169].

Definition TRANSLATION : list pystr :=
  map u ["a"; "b"; "v"; "g"; "d"; "e"; "e"; "j"; "z"; "i"; "j"; "k"; "l";
         "m"; "n"; "o"; "p"; "r"; "s"; "t"; "u"; "f"; "h"; "ts"; "ch";
         "sh"; "sch"; ""; "y"; ""; "e"; "yu"; "ya"; "je"; "i"; "ji";
         "g"]%string.

(** [c.upper()] for the letters of [CYRILLIC_SYMBOLS]: the capital of
    each of them is a single code point. *)
Definition cyrillic_upper (c : N) : N :=
  if (1072 <=? c) && (c <=? 1103) then c - 32
  else if (1104 <=? c) && (c <=? 1119) then c - 80
  else if c =? 1169 then 1168
  else c.

(** [gen_trans_dict]: keys are [ord(c)] and [ord(c.upper())]. *)
Definition gen_trans_dict : gmap N pystr :=
  foldl (λ trans_dict '(c, l),
           <[cyrillic_upper c := ascii_upper l]> (<[c := l]> trans_dict))
        ∅ (zip CYRILLIC_SYMBOLS TRANSLATION).

Definition TRANS_DICT : gmap N pystr := gen_trans_dict.

Section normalize.
Context `{Unicode}.

(** The body of the loop: what one [char] appends. *)
Definition normalize_char (char : N) : pystr :=
  if isalnum char then default [char] (TRANS_DICT !! char)
  else u "_".

Definition normalize (name : pystr) : pystr :=
  foldl (λ normalized_name char, normalized_name ++ normalize_char char)
        [] name.
End normalize.

End Normalize.

(** ** pathlib *)

(** A path is the list of its components, outermost first; the empty list
    is [Path('.')]. Components hold no separator. *)
Abbreviation Path := (list pystr).

Module PurePath.

(** [Path(s)] for a relative path written with ['/']: empty and ['.']
    segments are dropped. *)
Fixpoint split_sep (cur : pystr) (s : pystr) : list pystr :=
  match s with
  | [] => [cur]
  | c :: t => if c =? 47 then cur :: split_sep [] t
              else split_sep (cur ++ [c]) t
  end.

Definition of_str (s : pystr) : Path :=
  filter (λ seg, seg ≠ [] ∧ seg ≠ u ".") (split_sep [] s).

(** [p.name]: the final component, [''] when there is none. *)
Definition name (p : Path) : pystr := default [] (last p).

(** [suffix] and [stem] of a name:
    [i = name.rfind('.')] and the test [0 < i < len(name) - 1]. *)
Definition has_suffix_at (n : pystr) (i : nat) : bool :=
  ((0 <? i) && (i <? length n - 1))%nat.

Definition name_suffix (n : pystr) : pystr :=
  match rfind 46 n with
  | Some i => if has_suffix_at n i then drop i n else []
  | None => []
  end.

Definition name_stem (n : pystr) : pystr :=
  match rfind 46 n with
  | Some i => if has_suffix_at n i then take i n else n
  | None => n
  end.

Definition suffix (p : Path) : pystr := name_suffix (name p).
Definition stem (p : Path) : pystr := name_stem (name p).

(** [p.parent]; [Path('.').parent] is [Path('.')]. *)
Definition parent (p : Path) : Path := removelast p.

(** [p.joinpath(n)] for a single segment [n] without separator: an empty
    segment (and ['.']) adds nothing. *)
Definition joinpath (p : Path) (n : pystr) : Path :=
  if decide (n = [] ∨ n = u ".") then p else p ++ [n].

(** The names [gen_unique_name] tries in turn: the path itself, then
    [stem + str(k) + suffix] beside it for [k = 1, 2, ...]. *)
Definition candidate (path : Path) (k : nat) : Path :=
  match k with
  | O => path
  | S _ => parent path ++ [stem path ++ str k ++ suffix path]
  end.

End PurePath.

(** [segments ["a"; "b.txt"]] is [Path("a/b.txt")], for ASCII literals. *)
Definition segments (l : list string) : Path := map u l.

(** ** Exceptions *)
Inductive Exn :=
| FileExistsError
| FileNotFoundError
| PermissionError
| NotADirectoryError
| IsADirectoryError
| OSError_ENOTEMPTY
| OSError_EINVAL
| OSError_ENAMETOOLONG
| ReadError
| ValueError.

Global Instance Exn_eq_dec : EqDecision Exn.
Proof. solve_decision. Defined.

(** [except OSError] catches every exception above but [ValueError]. *)
Definition is_OSError (e : Exn) : bool :=
  match e with ValueError => false | _ => true end.

(** [with_name]: [ValueError] when the path has no name or the new name
    is not a single component. *)
Definition with_name (p : Path) (n : pystr) : Exn + Path :=
  if decide (PurePath.name p = []) then inl ValueError
  else if decide (n = [] ∨ n = u ".") then inl ValueError
  else inr (PurePath.parent p ++ [n]).

(** ** The file system *)
Inductive node := File (content : N) | Dir.

Global Instance node_eq_dec : EqDecision node.
Proof. solve_decision. Defined.

(** [os.rename] replaces an existing destination on POSIX and raises
    [FileExistsError] on Windows. *)
Inductive platform := Posix | Windows.

Global Instance platform_eq_dec : EqDecision platform.
Proof. solve_decision. Defined.

Record World := {
  os : platform;
  nodes : gmap Path node;
  (** directories in which entries can be neither created nor removed *)
  readonly : gset Path;
  (** directories that cannot be searched (no [x] permission): no name
      can be looked up in them *)
  unsearchable : gset Path;
  (** the longest name, in bytes, the file system takes ([NAME_MAX]) *)
  name_max : nat
}.

Definition set_nodes (w : World) (m : gmap Path node) : World :=
  {| os := os w; nodes := m; readonly := readonly w;
     unsearchable := unsearchable w; name_max := name_max w |}.

Module Fs.
Import PurePath.

(** [os.stat(p)] looks the components of [p] up one after the other.
    Looking a name up in a directory that cannot be searched fails with
    EACCES; on POSIX a name of more than [name_max] bytes fails with
    ENAMETOOLONG. (On Windows a path that is too long is reported as a
    path that is not found.) A component that is missing, or is not a
    directory, ends the walk: that is ENOENT or ENOTDIR, and the lookup
    in [nodes] tells the rest. *)
Definition too_long (w : World) (n : pystr) : bool :=
  bool_decide (os w = Posix ∧ (name_max w < utf8_length n)%nat).

Fixpoint stat_walk (w : World) (pre rest : Path) : option Exn :=
  match rest with
  | [] => None
  | n :: rest =>
      if decide (pre ∈ unsearchable w) then Some PermissionError
      else if too_long w n then Some OSError_ENAMETOOLONG
      else match nodes w !! (pre ++ [n]) with
           | Some Dir => stat_walk w (pre ++ [n]) rest
           | _ => None
           end
  end.

Definition stat_error (w : World) (p : Path) : option Exn :=
  stat_walk w [] p.

(** What [exists], [is_dir] and [is_file] share (pathlib 3.9 to 3.13):
    [os.stat], where ENOENT and ENOTDIR mean that there is no entry and
    every other [OSError] is raised again. *)
Definition stat (w : World) (p : Path) : Exn + option node :=
  match stat_error w p with
  | Some e => inl e
  | None => inr (nodes w !! p)
  end.

Definition exists_ (w : World) (p : Path) : Exn + bool :=
  match stat w p with
  | inl e => inl e
  | inr n => inr (bool_decide (is_Some n))
  end.
Definition is_dir (w : World) (p : Path) : Exn + bool :=
  match stat w p with
  | inl e => inl e
  | inr n => inr (bool_decide (n = Some Dir))
  end.
Definition is_file (w : World) (p : Path) : Exn + bool :=
  match stat w p with
  | inl e => inl e
  | inr n => inr (match n with Some (File _) => true | _ => false end)
  end.

(** [k] is an entry of directory [d]. *)
Definition is_child (d k : Path) : bool :=
  bool_decide (k ≠ [] ∧ parent k = d).

Definition children (w : World) (d : Path) : list Path :=
  filter (λ k, is_child d k = true) (map fst (map_to_list (nodes w))).

(** [list(p.iterdir())]: the directory is reached as [os.stat] reaches
    it; reading its names needs no search permission on it. *)
Definition iterdir (w : World) (p : Path) : Exn + list Path :=
  match stat w p with
  | inl e => inl e
  | inr None => inl FileNotFoundError
  | inr (Some (File _)) => inl NotADirectoryError
  | inr (Some Dir) => inr (children w p)
  end.

(** The calls that change the tree are given for paths that [os.stat]
    reaches within one file system: what a directory that cannot be
    searched, a name that is too long or a second device (EXDEV) make of
    them is left out.

    The checks every call that adds an entry [p] makes on its parent. *)
Definition check_parent (w : World) (p : Path) : option Exn :=
  match nodes w !! parent p with
  | None => Some FileNotFoundError
  | Some (File _) => Some NotADirectoryError
  | Some Dir => if decide (parent p ∈ readonly w) then Some PermissionError
                else None
  end.

(** [p.mkdir(exist_ok=True)] *)
Definition mkdir_exist_ok (w : World) (p : Path) : Exn + World :=
  match nodes w !! p with
  | Some Dir => inr w
  | Some (File _) => inl FileExistsError
  | None =>
      match check_parent w p with
      | Some e => inl e
      | None => inr (set_nodes w (<[p := Dir]> (nodes w)))
      end
  end.

(** [p.touch()] *)
Definition touch (w : World) (p : Path) : Exn + World :=
  match nodes w !! p with
  | Some _ => inr w
  | None =>
      match check_parent w p with
      | Some e => inl e
      | None => inr (set_nodes w (<[p := File 0]> (nodes w)))
      end
  end.

(** [p.rmdir()] *)
Definition rmdir (w : World) (p : Path) : Exn + World :=
  match nodes w !! p with
  | None => inl FileNotFoundError
  | Some (File _) => inl NotADirectoryError
  | Some Dir =>
      if decide (parent p ∈ readonly w) then inl PermissionError
      else if decide (children w p = []) then
             inr (set_nodes w (delete p (nodes w)))
           else inl OSError_ENOTEMPTY
  end.

(** [p.unlink()] *)
Definition unlink (w : World) (p : Path) : Exn + World :=
  match nodes w !! p with
  | None => inl FileNotFoundError
  | Some Dir => inl IsADirectoryError
  | Some (File _) =>
      if decide (parent p ∈ readonly w) then inl PermissionError
      else inr (set_nodes w (delete p (nodes w)))
  end.

(** [k] is [pre] or lies below it: the rest of [k] after [pre]. *)
Definition strip_prefix (pre k : Path) : option Path :=
  if decide (take (length pre) k = pre) then Some (drop (length pre) k)
  else None.

Definition under (pre k : Path) : Prop := is_Some (strip_prefix pre k).

Global Instance under_dec pre k : Decision (under pre k).
Proof. unfold under. apply _. Defined.

(** Move the entry [old], with all that lies below it, to [new];
    whatever was at [new] is replaced. *)
Definition move_subtree (old new : Path) (m : gmap Path node)
  : gmap Path node :=
  let moved :=
    omap (λ kv, (λ rest, (new ++ rest, kv.2)) <$> strip_prefix old kv.1)
         (map_to_list m) in
  list_to_map moved
  ∪ filter (λ kv, ¬ under old kv.1 ∧ ¬ under new kv.1) m.

(** [old.rename(new)]. A destination that is a directory above the
    source is never replaced: ENOTEMPTY. *)
Definition rename (w : World) (old new : Path) : Exn + World :=
  match nodes w !! old with
  | None => inl FileNotFoundError
  | Some src =>
      match check_parent w new with
      | Some e => inl e
      | None =>
          if decide (parent old ∈ readonly w) then inl PermissionError
          else if decide (old = new) then inr w
          else if decide (under old new) then inl OSError_EINVAL
          else
            let moved := inr (set_nodes w (move_subtree old new (nodes w))) in
            match nodes w !! new, os w with
            | None, _ => moved
            | Some _, Windows => inl FileExistsError
            | Some dst, Posix =>
                match src, dst with
                | File _, File _ => moved
                | File _, Dir => if decide (under new old)
                                 then inl OSError_ENOTEMPTY
                                 else inl IsADirectoryError
                | Dir, File _ => inl NotADirectoryError
                | Dir, Dir => if decide (children w new = []) then moved
                              else inl OSError_ENOTEMPTY
                end
            end
      end
  end.

(** What the operating system makes of a component ['..'] that follows
    a directory: the parent of that directory. pathlib keeps ['..'] in
    the paths it builds; of the paths the methods build, only the
    directory [handle_archive] unpacks into can hold one. *)
Definition resolve (p : Path) : Path :=
  foldl (λ acc n, if decide (n = u ".." ∧ acc ≠ [] ∧ name acc ≠ u "..")
                  then parent acc else acc ++ [n]) [] p.

End Fs.

(** ** shutil

    [shutil.unpack_archive] is an external collaborator: it reads the
    archive, writes below the extraction directory, and may fail part
    way. It returns the exception it raised, if any, and the file system
    it left. *)
Class Shutil := {
  unpack_archive : World → Path → Path → option Exn * World
}.

(** [s.endswith(t)] *)
Definition endswith (s t : pystr) : bool :=
  bool_decide (drop (length s - length t) s = t ∧ (length t ≤ length s)%nat).

(** An unpacker for concrete runs. The format is found from the file name
    as the registry of [shutil] does; extraction creates the directory and
    one member holding the archive's content. *)
Definition unpack_extensions : list pystr :=
  map u [".tar.bz2"; ".tbz2"; ".tar.gz"; ".tgz"; ".tar"; ".tar.xz"; ".txz";
         ".zip"]%string.

Definition py_unpack_archive (w : World) (filename extract_dir : Path)
  : option Exn * World :=
  let extract_dir := Fs.resolve extract_dir in
  if existsb (endswith (PurePath.name filename)) unpack_extensions then
    match nodes w !! filename with
    | Some (File c) =>
        match Fs.mkdir_exist_ok w extract_dir with
        | inl e => (Some e, w)
        | inr w' =>
            (None, set_nodes w' (<[extract_dir ++ [u "member"] := File c]>
                                   (nodes w')))
        end
    | Some Dir => (Some IsADirectoryError, w)
    | None => (Some FileNotFoundError, w)
    end
  else (Some ReadError, w).

Instance py_shutil : Shutil := {| unpack_archive := py_unpack_archive |}.

(** ** The iteration order of a set

    [for x in a_set] visits the elements in the order of their hashes,
    which for paths changes with the hash seed of the interpreter: each
    run has its own order, some permutation of the elements. *)
Class SetOrder := {
  iter_set : gset Path → list Path;
  iter_set_perm : ∀ X, iter_set X ≡ₚ elements X
}.

(** The order for concrete runs. *)
Instance py_set_order : SetOrder :=
  {| iter_set := elements; iter_set_perm := λ X, Permutation_refl _ |}.

(** ** class CleanFolder *)

(** What [execute_in_thread] submits: a bound method and its arguments. *)
Inductive Task :=
| scan_dir_task (cur_dir : Path)
| move_file_task (old_path new_path : Path)
| handle_archive_task (path : Path).

(** The fields of a [CleanFolder] together with the file system it works
    on. [thread_pool] holds the futures in submission order. *)
Record State := {
  world : World;
  path : Path;
  target_pathes : gset Path;
  known_formats : gset pystr;
  unknown_formats : gset pystr;
  thread_pool : list Task;
  folders : list Path
}.

Definition set_world (f : World → World) (s : State) : State :=
  {| world := f (world s); path := path s; target_pathes := target_pathes s;
     known_formats := known_formats s; unknown_formats := unknown_formats s;
     thread_pool := thread_pool s; folders := folders s |}.
Definition set_known_formats (f : gset pystr → gset pystr) (s : State) : State :=
  {| world := world s; path := path s; target_pathes := target_pathes s;
     known_formats := f (known_formats s); unknown_formats := unknown_formats s;
     thread_pool := thread_pool s; folders := folders s |}.
Definition set_unknown_formats (f : gset pystr → gset pystr) (s : State) : State :=
  {| world := world s; path := path s; target_pathes := target_pathes s;
     known_formats := known_formats s; unknown_formats := f (unknown_formats s);
     thread_pool := thread_pool s; folders := folders s |}.
Definition set_thread_pool (f : list Task → list Task) (s : State) : State :=
  {| world := world s; path := path s; target_pathes := target_pathes s;
     known_formats := known_formats s; unknown_formats := unknown_formats s;
     thread_pool := f (thread_pool s); folders := folders s |}.
Definition set_folders (f : list Path → list Path) (s : State) : State :=
  {| world := world s; path := path s; target_pathes := target_pathes s;
     known_formats := known_formats s; unknown_formats := unknown_formats s;
     thread_pool := thread_pool s; folders := f (folders s) |}.

(** *** The monad of methods

    A call returns a value, raises, or is still looping when the fuel is
    spent; the state it reached is kept in each case. *)
Inductive Res (A : Type) :=
| Ret (a : A)
| Raise (e : Exn)
| OutOfFuel.
Arguments Ret {A} a.
Arguments Raise {A} e.
Arguments OutOfFuel {A}.

Definition M (A : Type) : Type := State → Res A * State.

Global Instance M_ret : MRet M := λ A a s, (Ret a, s).
Global Instance M_bind : MBind M := λ A B f m s,
  match m s with
  | (Ret a, s') => f a s'
  | (Raise e, s') => (Raise e, s')
  | (OutOfFuel, s') => (OutOfFuel, s')
  end.

Definition raise {A} (e : Exn) : M A := λ s, (Raise e, s).
Definition out_of_fuel {A} : M A := λ s, (OutOfFuel, s).
Definition get : M State := λ s, (Ret s, s).
Definition modify (f : State → State) : M unit := λ s, (Ret tt, f s).

(** [try: body except: handler] and [except OSError]. *)
Definition try_except {A} (body : M A) (handler : Exn → M A) : M A := λ s,
  match body s with
  | (Raise e, s') => handler e s'
  | r => r
  end.

Definition try_except_OSError {A} (body : M A) (handler : Exn → M A) : M A :=
  try_except body (λ e, if is_OSError e then handler e else raise e).

(** A call into the file system that changes it. *)
Definition fs_call (op : World → Exn + World) : M unit := λ s,
  match op (world s) with
  | inl e => (Raise e, s)
  | inr w => (Ret tt, set_world (λ _, w) s)
  end.

(** A call that only reads it. *)
Definition fs_read {A} (op : World → Exn + A) : M A := λ s,
  match op (world s) with
  | inl e => (Raise e, s)
  | inr a => (Ret a, s)
  end.

(** [for x in l: body x] *)
Fixpoint for_each {A} (l : list A) (body : A → M unit) : M unit :=
  match l with
  | [] => mret tt
  | x :: l => body x ;; for_each l body
  end.

Module CleanFolder.
Import PurePath.

Definition FORMATS_DICT : list (pystr * gset pystr) :=
  [(u "images", list_to_set (map u ["JPEG"; "PNG"; "JPG"; "SVG"]));
   (u "video", list_to_set (map u ["AVI"; "MP4"; "MOV"; "MKV"]));
   (u "documents",
     list_to_set (map u ["DOC"; "DOCX"; "TXT"; "PDF"; "XLSX"; "PPTX"]));
   (u "audio", list_to_set (map u ["MP3"; "OGG"; "WAV"; "M4A"; "AMR"]));
   (u "archives", list_to_set (map u ["ZIP"; "GZ"; "TAR"]))]%string.

(** [gen_formats_path_set] *)
Definition gen_formats_path_set (path : Path) : gset Path :=
  foldl (λ formats_path_set file_type,
           formats_path_set ∪ {[joinpath path file_type.1]})
        ∅ FORMATS_DICT.

(** [__init__]: the fields of a new object, and the setter of [path],
    which raises [ValueError("Invalid path")]. *)
Definition new (w : World) (path : Path) : State :=
  {| world := w; path := path;
     target_pathes := gen_formats_path_set path;
     known_formats := ∅; unknown_formats := ∅;
     thread_pool := []; folders := [] |}.

Definition init (w : World) (path : Path) : Exn + State :=
  match Fs.exists_ w path with
  | inl e => inl e
  | inr false => inl ValueError
  | inr true =>
      match Fs.is_dir w path with
      | inl e => inl e
      | inr false => inl ValueError
      | inr true => inr (new w path)
      end
  end.

Section methods.
Context `{Unicode} `{Shutil} `{SetOrder}.

(** [get_target_folder] *)
Definition get_target_folder (targets : gset Path) (extension : pystr)
  : option Path :=
  let extension := str_upper extension in
  let new_folder :=
    default [] (fst <$> find (λ file_type,
                                bool_decide (extension ∈ file_type.2))
                             FORMATS_DICT) in
  find (λ path, bool_decide (str_lower (name path) = str_lower new_folder))
       (elements targets).

(** [gen_unique_name]; [idx] and [new_path] are the loop's variables. *)
Fixpoint gen_unique_loop (fuel : nat) (start_name : pystr) (idx : nat)
    (new_path : Path) : M Path :=
  taken ← fs_read (λ w, Fs.exists_ w new_path);
  if taken : bool then
    match fuel with
    | O => out_of_fuel
    | S fuel =>
        let idx := (idx + 1)%nat in
        let new_name := start_name ++ str idx ++ suffix new_path in
        new_path ← fs_read (λ _, with_name new_path new_name);
        gen_unique_loop fuel start_name idx new_path
    end
  else mret new_path.

Definition gen_unique_name (fuel : nat) (path : Path) : M Path :=
  let start_name := removesuffix (name path) (suffix path) in
  gen_unique_loop fuel start_name 0 path.

(** [n] calls of [gen_unique_name] on the same path in one thread,
    each returned path being taken (by [touch]) before the next
    call. *)
Fixpoint successive_unique_names (fuel n : nat) (path : Path)
  : M (list Path) :=
  match n with
  | O => mret []
  | S n =>
      new_path ← gen_unique_name fuel path;
      fs_call (λ w, Fs.touch w new_path) ;;
      rest ← successive_unique_names fuel n path;
      mret (new_path :: rest)
  end.

(** [execute_in_thread] *)
Definition execute_in_thread (t : Task) : M unit :=
  modify (set_thread_pool (λ pool, pool ++ [t])).

(** [handle_file] *)
Definition handle_file (file_path : Path) : M unit :=
  let new_name := Normalize.normalize (stem file_path) in
  let new_name := new_name ++ suffix file_path in
  let extension := removeprefix_dot (suffix file_path) in
  s ← get;
  target_path ←
    match get_target_folder (target_pathes s) extension with
    | Some target_path =>
        modify (set_known_formats (λ k, k ∪ {[extension]})) ;;
        mret target_path
    | None =>
        modify (set_unknown_formats (λ k, k ∪ {[extension]})) ;;
        mret (parent file_path)
    end;
  fs_call (λ w, Fs.mkdir_exist_ok w target_path) ;;
  let target_path := joinpath target_path new_name in
  if decide (target_path ≠ file_path) then
    execute_in_thread (move_file_task file_path target_path)
  else mret tt.

(** [move_file]: the handler of the bare [except] runs outside the
    [try], so what [gen_unique_name] raises leaves the method. *)
Fixpoint move_file (fuel : nat) (old_path new_path : Path) : M unit :=
  match fuel with
  | O => out_of_fuel
  | S fuel =>
      try_except (fs_call (λ w, Fs.rename w old_path new_path))
        (λ _, new_path ← gen_unique_name fuel new_path;
              move_file fuel old_path new_path)
  end.

(** [handle_folders]: the body of the loop for one popped folder. *)
Definition handle_folder (fuel : nat) (folder_path : Path) : M unit :=
  present ← fs_read (λ w, Fs.exists_ w folder_path);
  if negb present then mret tt
  else
    let new_name := Normalize.normalize (stem folder_path) in
    entries ← fs_read (λ w, Fs.iterdir w folder_path);
    if decide (entries = []) then
      try_except_OSError (fs_call (λ w, Fs.rmdir w folder_path))
                         (λ _, mret tt)
    else if decide (new_name ≠ name folder_path) then
      let target_path := joinpath (parent folder_path) new_name in
      move_file fuel folder_path target_path
    else mret tt.

(** [while folders: folder_path = folders.pop(); ...]; [stack] is the
    list in the order it is popped. *)
Fixpoint handle_folders_loop (fuel : nat) (stack : list Path) : M unit :=
  match stack with
  | [] => mret tt
  | folder_path :: stack =>
      modify (set_folders (λ _, rev stack)) ;;
      handle_folder fuel folder_path ;;
      handle_folders_loop fuel stack
  end.

Definition handle_folders (fuel : nat) : M unit :=
  s ← get;
  handle_folders_loop fuel (rev (folders s)).

(** [scan_dir]: the body of the loop for one entry. *)
Definition scan_entry (cur_path : Path) : M unit :=
  s ← get;
  if decide (cur_path ∈ target_pathes s) then mret tt
  else
    file ← fs_read (λ w, Fs.is_file w cur_path);
    if file : bool then handle_file cur_path
    else
      dir ← fs_read (λ w, Fs.is_dir w cur_path);
      if dir : bool then
        modify (set_folders (λ l, l ++ [cur_path])) ;;
        execute_in_thread (scan_dir_task cur_path)
      else mret tt.

Definition scan_dir (cur_dir : Path) : M unit :=
  entries ← fs_read (λ w, Fs.iterdir w cur_dir);
  for_each entries scan_entry.

(** [handle_archive] *)
Definition handle_archive (path : Path) : M unit :=
  let folder := parent path in
  (λ s, match unpack_archive (world s) path (joinpath folder (stem path)) with
        | (Some e, w) => (Raise e, set_world (λ _, w) s)
        | (None, w) => (Ret tt, set_world (λ _, w) s)
        end) ;;
  fs_call (λ w, Fs.unlink w path).

(** [postprocessing]: the body of the loop over the entries of
    [archives], and the body of the loop for one destination. *)
Definition dispatch_archive (arch : Path) : M unit :=
  dir ← fs_read (λ w, Fs.is_dir w arch);
  if dir : bool then mret tt
  else execute_in_thread (handle_archive_task arch).

Definition postprocess_folder (folder : Path) : M unit :=
  present ← fs_read (λ w, Fs.exists_ w folder);
  if negb present then mret tt
  else
    (if decide (name folder = u "archives") then
       entries ← fs_read (λ w, Fs.iterdir w folder);
       for_each entries dispatch_archive
     else mret tt) ;;
    _ ← fs_read (λ w, Fs.iterdir w folder);
    mret tt.

Definition postprocessing : M unit :=
  s ← get;
  for_each (iter_set (target_pathes s)) postprocess_folder.

(** The call a worker makes for a submitted task. *)
Definition run_task (fuel : nat) (t : Task) : M unit :=
  match t with
  | scan_dir_task cur_dir => scan_dir cur_dir
  | move_file_task old_path new_path => move_file fuel old_path new_path
  | handle_archive_task path => handle_archive path
  end.

(** [wait_for_result]: [future.result()] for each future of
    [thread_pool], in order, futures appended meanwhile included; the
    first exception met is raised. A task runs when its result is
    asked for. *)
Fixpoint wait_loop (fuel : nat) (i : nat) (result : list unit)
  : M (list unit) :=
  s ← get;
  match thread_pool s !! i with
  | None => modify (set_thread_pool (λ _, [])) ;; mret result
  | Some future =>
      match fuel with
      | O => out_of_fuel
      | S fuel =>
          r ← run_task fuel future;
          wait_loop fuel (S i) (result ++ [r])
      end
  end.

Definition wait_for_result (fuel : nat) : M (list unit) :=
  wait_loop fuel 0 [].

(** [executor.shutdown()]: the futures still pending run to their end;
    nobody asks for their results, so what they raise is dropped. *)
Fixpoint shutdown_loop (fuel : nat) (i : nat) : M unit :=
  s ← get;
  match thread_pool s !! i with
  | None => mret tt
  | Some future =>
      match fuel with
      | O => out_of_fuel
      | S fuel =>
          try_except (run_task fuel future) (λ _, mret tt) ;;
          shutdown_loop fuel (S i)
      end
  end.

Definition shutdown (fuel : nat) : M unit := shutdown_loop fuel 0.

(** [main] after the construction of [cleaner]. *)
Definition run (fuel : nat) : M Z :=
  s ← get;
  scan_dir (path s) ;;
  _ ← wait_for_result fuel;
  handle_folders fuel ;;
  postprocessing ;;
  shutdown fuel ;;
  mret 0%Z.

(** [main]: what it returns or raises, and the state it leaves;
    [None] when no [CleanFolder] was built. *)
Definition main (fuel : nat) (argv : list pystr) (w : World)
  : Res Z * option State :=
  match argv with
  | _ :: working_folder :: _ =>
      match init w (of_str working_folder) with
      | inl e => (Raise e, None)
      | inr cleaner => let '(r, s) := run fuel cleaner in (r, Some s)
      end
  | _ => (Ret 1%Z, None)
  end.

(** The exit status of the process: the script calls [main()] and
    drops what it returns, so only an exception that leaves [main]
    makes the status non-zero. *)
Definition exit_status (r : Res Z) : option Z :=
  match r with
  | Ret _ => Some 0%Z
  | Raise _ => Some 1%Z
  | OutOfFuel => None
  end.

End methods.
End CleanFolder.

(** ** Schedules

    The main thread and the workers of the pool take turns. A turn is one
    pass of the loop of [scan_dir] over an entry of a directory that is
    being scanned (the root, or the directory of a submitted scan), the
    run of a submitted move or unpacking, or one of the later phases of
    [main]. Tasks may run in any order and at any time after they were
    submitted. *)
Module Schedule.
Import PurePath CleanFolder.

Section step.
Context `{Unicode} `{Shutil} `{SetOrder}.

Inductive step : State → State → Prop :=
| step_scan_entry (s : State) (cur_dir cur_path : Path) :
    cur_dir = path s ∨ scan_dir_task cur_dir ∈ thread_pool s →
    cur_path ≠ [] → parent cur_path = cur_dir →
    step s (scan_entry cur_path s).2
| step_move_file (s : State) (old_path new_path : Path) (fuel : nat) :
    move_file_task old_path new_path ∈ thread_pool s →
    step s (move_file fuel old_path new_path s).2
| step_handle_archive (s : State) (path : Path) :
    handle_archive_task path ∈ thread_pool s →
    step s (handle_archive path s).2
| step_drained (s : State) :
    step s (set_thread_pool (λ _, []) s)
| step_handle_folders (s : State) (fuel : nat) :
    step s (handle_folders fuel s).2
| step_postprocessing (s : State) :
    step s (postprocessing s).2.

(** The states a run can be in, from a new [CleanFolder]. *)
Definition reachable (w : World) (root : Path) (s : State) : Prop :=
  rtc step (new w root) s.
End step.

(** The fields no call into the file system touches, the list of
    folders apart. *)
Definition fixed (s : State)
  : Path * gset Path * gset pystr * gset pystr * list Task :=
  (path s, target_pathes s, known_formats s, unknown_formats s,
   thread_pool s).

Definition keeps {A} (m : M A) : Prop := ∀ s, fixed (m s).2 = fixed s.

(** The two sets of extensions are told apart by the classifier. *)
Definition formats_partitioned `{Unicode} (s : State) : Prop :=
  (∀ e, e ∈ known_formats s →
        is_Some (get_target_folder (target_pathes s) e))
  ∧ (∀ e, e ∈ unknown_formats s →
          get_target_folder (target_pathes s) e = None).

(** What holds in every state of a run: the destinations are those of
    the root, no submitted scan is for one of them, the sets of
    extensions are told apart by the classifier, and they only grow
    (from [K] and [U]). *)
Definition invariant `{Unicode} (root : Path) (K U : gset pystr)
    (s : State) : Prop :=
  path s = root
  ∧ target_pathes s = gen_formats_path_set root
  ∧ (∀ cur_dir, scan_dir_task cur_dir ∈ thread_pool s →
                cur_dir ∉ target_pathes s)
  ∧ formats_partitioned s
  ∧ K ⊆ known_formats s
  ∧ U ⊆ unknown_formats s.

Definition preserves {A} (I : State → Prop) (m : M A) : Prop :=
  ∀ s, I s → I (m s).2.

(** The tasks [postprocessing] submits for a destination: one for each
    entry of [archives] that is not a directory. *)
Definition archive_tasks (w : World) (folder : Path) : list Task :=
  if decide (name folder = u "archives") then
    handle_archive_task
      <$> filter (λ arch, nodes w !! arch ≠ Some Dir) (Fs.children w folder)
  else [].

End Schedule.

(** ** Concrete file systems

    Small trees below a folder [tresh], the name the repository's
    generator of test trees uses, on which the methods are run. *)
Module Examples.

Definition tresh : Path := segments ["tresh"].

Definition tree (o : platform) (entries : list (list string * node))
  : World :=
  {| os := o; readonly := ∅; unsearchable := ∅; name_max := 255;
     nodes := list_to_map (([], Dir) :: (tresh, Dir)
                :: map (λ e, (tresh ++ segments e.1, e.2)) entries) |}.

(** One text file. *)
Definition one_file : World := tree Posix [(["a.txt"], File 1)].

(** A name that ends in a dot, and the first name tried beside it. *)
Definition trailing_dot : World :=
  tree Posix [(["a."], File 1); (["a.1"], File 2)].


(** A file to move into a folder that does not accept new entries. *)
Definition locked_documents : World :=
  {| os := Posix; unsearchable := ∅; name_max := 255;
     nodes := nodes (tree Posix [(["x.txt"], File 1); (["documents"], Dir)]);
     readonly := {[ segments ["tresh"; "documents"] ]} |}.

(** Two text files whose names normalize to [a_b.txt]. *)
Definition same_name (o : platform) : World :=
  tree o [(["a b.txt"], File 1); (["a_b.txt"], File 2)].

(** A folder with a dot in its name, holding a file of unknown format. *)
Definition dotted_folder : World :=
  tree Posix [(["v1.2"], Dir); (["v1.2"; "notes.xyz"], File 1)].

(** A folder named by a hard sign alone, below [sub]. *)
Definition hard_sign_folder : World :=
  {| os := Posix; readonly := ∅; unsearchable := ∅; name_max := 255;
     nodes := list_to_map
       [([], Dir); (tresh, Dir); (tresh ++ [u "sub"], Dir);
        (tresh ++ [u "sub"; [1098]], Dir);
        (tresh ++ [u "sub"; [1098]; u "notes.xyz"], File 1)] |}.

(** An archive, a gzip file that is no archive, a folder and a text
    file in the destination of archives. *)
Definition archives_folder : World :=
  tree Posix [(["archives"], Dir); (["archives"; "a.zip"], File 1);
              (["archives"; "data.gz"], File 2);
              (["archives"; "old"], Dir)].

(** A gzip file in the root: the classifier sends it to [archives]. *)
Definition gzip_file : World := tree Posix [(["data.gz"], File 1)].

(** A regular file named like a destination, and an archive in the
    destination of archives. *)
Definition file_destination : World :=
  tree Posix [(["images"], File 1); (["archives"], Dir);
              (["archives"; "a.zip"], File 2)].

(** An archive whose stem is ['..']: the name is three dots and [zip]. *)
Definition dotdot_archive : World :=
  tree Posix [(["archives"], Dir); (["archives"; "...zip"], File 1)].

(** A file whose name has 255 bytes, the longest the file system
    takes. *)
Definition long_name : World :=
  {| os := Posix; readonly := ∅; unsearchable := ∅; name_max := 255;
     nodes := list_to_map [([], Dir); (tresh, Dir);
                           (tresh ++ [replicate 255 120], File 1)] |}.

(** The arguments of the script. *)
Definition argv : list pystr := [u "cleaner_threaded.py"; u "tresh"].

End Examples.

(** * Properties *)

(** ** Normalize *)
Module NormalizeFacts.
Import Normalize.

Lemma foldl_app_concat {A} (f : A → pystr) (l : list A) (acc : pystr) :
  foldl (λ r x, r ++ f x) acc l = acc ++ concat (map f l).
Proof.
  revert acc. induction l as [|x l IH]; intros acc; simpl.
  - by rewrite app_nil_r.
  - by rewrite IH, app_assoc.
Qed.

Lemma elem_of_concat_map {A} (f : A → pystr) (l : list A) (c : N) :
  c ∈ concat (map f l) ↔ ∃ x, x ∈ l ∧ c ∈ f x.
Proof.
  induction l as [|x l IH]; simpl.
  - split; [by intros ?%elem_of_nil|by intros (? & ?%elem_of_nil & _)].
  - rewrite elem_of_app, IH. split.
    + intros [?|(y & ? & ?)]; [exists x|exists y]; split; try done;
        [by left|by right].
    + intros (y & [->|?]%elem_of_cons & ?); [by left|right; by exists y].
Qed.

Lemma elem_of_concat_map' {A B} (f : A → list B) (l : list A) (b : B) :
  b ∈ concat (map f l) ↔ ∃ x, x ∈ l ∧ b ∈ f x.
Proof.
  induction l as [|x l IH]; simpl.
  - split; [by intros ?%elem_of_nil|by intros (? & ?%elem_of_nil & _)].
  - rewrite elem_of_app, IH. split.
    + intros [?|(y & ? & ?)]; [exists x|exists y]; split; try done;
        [by left|by right].
    + intros (y & [->|?]%elem_of_cons & ?); [by left|right; by exists y].
Qed.

(** The loop of [normalize] appends, for each character in turn, what
    [normalize_char] gives. *)
Lemma normalize_concat `{Unicode} (name : pystr) :
  normalize name = concat (map normalize_char name).
Proof. unfold normalize. by rewrite foldl_app_concat. Qed.

Lemma normalize_app `{Unicode} (a b : pystr) :
  normalize (a ++ b) = normalize a ++ normalize b.
Proof. by rewrite !normalize_concat, map_app, concat_app. Qed.

(** Every transliteration of the table is made of ASCII letters. *)
Lemma TRANS_DICT_values :
  map_Forall (λ _ l, forallb is_word_char l = true) TRANS_DICT.
Proof. apply (bool_decide_unpack _). by vm_compute. Qed.

(** The keys of the table are Cyrillic letters, outside ASCII. *)
Lemma TRANS_DICT_keys :
  map_Forall (λ c (_ : pystr), (128 <=? c) = true) TRANS_DICT.
Proof. apply (bool_decide_unpack _). by vm_compute. Qed.

(** The database for concrete runs agrees with ASCII on ASCII. *)
Lemma py_isalnum_ascii (c : N) :
  c < 128 → py_isalnum c = true → is_ascii_alnum c = true.
Proof.
  unfold py_isalnum. intros Hc Halnum.
  destruct (is_ascii_alnum c); [done|]. simpl in Halnum.
  repeat rewrite orb_true_iff in Halnum.
  repeat rewrite andb_true_iff in Halnum.
  repeat rewrite N.eqb_eq in Halnum.
  repeat rewrite N.leb_le in Halnum.
  lia.
Qed.

(** C3, as amended. [normalize] works character by character: a
    character that is not alphanumeric becomes one underscore, a letter
    of the table becomes its transliteration, made of ASCII letters,
    and any other alphanumeric character is kept as it is. So every
    character of the result is in [[A-Za-z0-9_]] or is a non-ASCII
    alphanumeric character of the input that the table does not hold;
    for an input made of ASCII characters and letters of the table the
    result lies in [[A-Za-z0-9_]]. *)
Theorem normalize_alphabet `{Unicode} (name : pystr) :
  (∀ c, c < 128 → isalnum c = true → is_ascii_alnum c = true) →
  normalize name = concat (map normalize_char name)
  ∧ (∀ char, isalnum char = false → normalize_char char = u "_")
  ∧ (∀ char l, isalnum char = true → TRANS_DICT !! char = Some l →
       normalize_char char = l ∧ Forall (λ c, is_word_char c = true) l)
  ∧ (∀ char, isalnum char = true → TRANS_DICT !! char = None →
       normalize_char char = [char])
  ∧ Forall (λ c, is_word_char c = true
                 ∨ (c ∈ name ∧ 128 ≤ c ∧ isalnum c = true
                    ∧ TRANS_DICT !! c = None))
           (normalize name)
  ∧ (Forall (λ c, c < 128 ∨ is_Some (TRANS_DICT !! c)) name →
     Forall (λ c, is_word_char c = true) (normalize name)).
Proof.
  intros Hascii.
  assert (Hchar : ∀ char c, c ∈ normalize_char char →
            is_word_char c = true
            ∨ (c = char ∧ 128 ≤ c ∧ isalnum c = true
               ∧ TRANS_DICT !! c = None)).
  { intros char c. unfold normalize_char.
    destruct (isalnum char) eqn:Halnum.
    - destruct (TRANS_DICT !! char) as [l|] eqn:Hl; simpl.
      + intros Hc. left.
        pose proof (TRANS_DICT_values _ _ Hl) as Hall. simpl in Hall.
        rewrite forallb_forall in Hall. apply Hall.
        by apply list_elem_of_In.
      + intros ->%list_elem_of_singleton.
        destruct (N.lt_ge_cases char 128) as [Hlt|Hge].
        * left. unfold is_word_char. by rewrite (Hascii char Hlt Halnum).
        * right. done.
    - intros ->%list_elem_of_singleton. by left. }
  split; [apply normalize_concat|].
  split; [intros char Hc; unfold normalize_char; by rewrite Hc|].
  split.
  { intros char l Hc Hl. unfold normalize_char. rewrite Hc, Hl. simpl.
    split; [done|]. apply Forall_forall. intros c Hin.
    pose proof (TRANS_DICT_values _ _ Hl) as Hall. simpl in Hall.
    rewrite forallb_forall in Hall. apply Hall. by apply list_elem_of_In. }
  split; [intros char Hc Hl; unfold normalize_char; by rewrite Hc, Hl|].
  split.
  - apply Forall_forall. intros c. rewrite normalize_concat.
    intros (char & Hchar_in & Hc)%elem_of_concat_map.
    destruct (Hchar _ _ Hc) as [?|(-> & ? & ? & ?)]; [by left|by right].
  - intros Hname. apply Forall_forall. intros c. rewrite normalize_concat.
    intros (char & Hchar_in & Hc)%elem_of_concat_map.
    destruct (Hchar _ _ Hc) as [?|(-> & Hge & ? & Hnone)]; [done|].
    rewrite Forall_forall in Hname.
    destruct (Hname _ Hchar_in) as [Hlt|[? Hsome]]; [lia|congruence].
Qed.

(** The amended statement at the name ["щ é"], of which the last
    character is alphanumeric and kept. *)
Lemma normalize_alphabet_witness :
  (∀ c, c < 128 → py_isalnum c = true → is_ascii_alnum c = true)
  ∧ Forall (λ c, is_word_char c = true
                 ∨ (c ∈ [1097; 32; 233] ∧ 128 ≤ c ∧ py_isalnum c = true
                    ∧ TRANS_DICT !! c = None))
           (normalize (H:=py_unicode) [1097; 32; 233]).
Proof.
  split; [exact py_isalnum_ascii|].
  apply (normalize_alphabet (H:=py_unicode) [1097; 32; 233] py_isalnum_ascii).
Defined.

(** C3 as stated fails: ["é"] (U+00E9) is alphanumeric and not in the
    table, so [normalize] returns it unchanged. *)
Lemma normalize_keeps_e_acute :
  normalize (H:=py_unicode) [233] = [233]
  ∧ ¬ Forall (λ c, is_word_char c = true) (normalize (H:=py_unicode) [233]).
Proof.
  split; [by vm_compute|].
  intros Hall. apply Forall_inv in Hall. by vm_compute in Hall.
Qed.

(** C10. The table sends the hard sign and the soft sign to the empty
    string, so the non-empty name ["ъь"] is normalized to the empty
    string, and the new name [handle_file] computes for ["ъь.txt"],
    [normalize(stem) + suffix], is the suffix alone. *)
Theorem normalize_nonempty_to_empty `{Unicode} :
  isalnum 1098 = true → isalnum 1100 = true →
  TRANS_DICT !! 1098 = Some [] ∧ TRANS_DICT !! 1100 = Some []
  ∧ (∃ name : pystr, name ≠ [] ∧ normalize name = [])
  ∧ (let file_path := segments ["tresh"] ++ [[1098; 1100] ++ u ".txt"] in
     normalize (PurePath.stem file_path) ++ PurePath.suffix file_path
     = u ".txt").
Proof.
  intros Hhard Hsoft.
  assert (Hn : normalize [1098; 1100] = []).
  { rewrite normalize_concat. simpl. unfold normalize_char.
    rewrite Hhard, Hsoft. by vm_compute. }
  split; [by vm_compute|]. split; [by vm_compute|].
  split; [by exists [1098; 1100]|].
  change (PurePath.stem _) with ([1098; 1100] : pystr).
  change (PurePath.suffix _) with (u ".txt").
  by rewrite Hn.
Qed.

Lemma normalize_nonempty_to_empty_witness :
  py_isalnum 1098 = true ∧ py_isalnum 1100 = true
  ∧ ∃ name : pystr, name ≠ [] ∧ normalize (H:=py_unicode) name = [].
Proof.
  split; [reflexivity|]. split; [reflexivity|].
  apply (normalize_nonempty_to_empty (H:=py_unicode)); reflexivity.
Defined.

End NormalizeFacts.

(** ** Strings and paths *)
Module PathFacts.
Import PurePath.

Lemma uint_digits_inj (a b : Decimal.uint) :
  uint_digits a = uint_digits b → a = b.
Proof.
  revert b. induction a; intros [] Heq; simpl in Heq;
    try discriminate; try done; f_equal; apply IHa; congruence.
Qed.

Lemma str_inj (j k : nat) : str j = str k → j = k.
Proof. intros Heq. by apply Unsigned.to_uint_inj, uint_digits_inj. Qed.

Lemma uint_digits_digits (a : Decimal.uint) :
  Forall (λ c, is_digit c = true) (uint_digits a).
Proof. induction a; simpl; constructor; done. Qed.

Lemma str_digits (k : nat) : Forall (λ c, is_digit c = true) (str k).
Proof. apply uint_digits_digits. Qed.

Lemma str_nonempty (k : nat) : str k ≠ [].
Proof.
  unfold str. intros Heq.
  assert (Hnil : Nat.to_uint k = Decimal.Nil).
  { apply uint_digits_inj. by rewrite Heq. }
  pose proof (Unsigned.of_to k) as Hk. rewrite Hnil in Hk.
  simpl in Hk. subst k. discriminate Hnil.
Qed.

Lemma rfind_None (c : N) (s : pystr) : rfind c s = None ↔ c ∉ s.
Proof.
  induction s as [|x s IH]; simpl.
  - split; [intros _; apply not_elem_of_nil|done].
  - rewrite not_elem_of_cons. destruct (rfind c s) as [i|].
    + split; [done|]. intros [_ Hs]. by apply IH in Hs.
    + destruct (N.eqb_spec x c) as [->|Hne].
      * split; [done|]. by intros [? _].
      * split; [|done]. intros _. split; [done|]. by apply IH.
Qed.

Lemma rfind_app (c : N) (a b : pystr) :
  rfind c (a ++ b) =
    match rfind c b with
    | Some i => Some (length a + i)%nat
    | None => rfind c a
    end.
Proof.
  induction a as [|x a IH]; simpl.
  - by destruct (rfind c b).
  - rewrite IH. by destruct (rfind c b).
Qed.

(** The index [rfind] gives holds [c], and [c] does not occur after it. *)
Lemma rfind_Some (c : N) (s : pystr) (i : nat) :
  rfind c s = Some i →
  ∃ e, drop i s = c :: e ∧ (c ∉ e) ∧ (i < length s)%nat.
Proof.
  revert i. induction s as [|x s IH]; intros i; simpl; [done|].
  destruct (rfind c s) as [j|] eqn:Hj.
  - intros [= <-]. destruct (IH j eq_refl) as (e & He & Hne & Hlt).
    exists e. simpl. split_and!; [done|done|lia].
  - destruct (N.eqb_spec x c) as [->|Hne]; [|done].
    intros [= <-]. exists s. simpl. apply rfind_None in Hj.
    split_and!; [done|done|lia].
Qed.

Lemma str_no_dot (k : nat) : rfind 46 (str k) = None.
Proof.
  apply rfind_None. intros Hin.
  pose proof (str_digits k) as Hd. rewrite Forall_forall in Hd.
  specialize (Hd _ Hin). by vm_compute in Hd.
Qed.

(** [name.removesuffix(suffix)] is the stem. *)
Lemma removesuffix_stem (n : pystr) :
  removesuffix n (name_suffix n) = name_stem n.
Proof.
  unfold removesuffix, name_suffix, name_stem.
  destruct (rfind 46 n) as [i|] eqn:Hi.
  - destruct (has_suffix_at n i) eqn:Hs.
    + apply rfind_Some in Hi as (e & He & _ & Hlt).
      rewrite length_drop.
      replace ((length n - (length n - i))%nat) with i by lia.
      by rewrite decide_True.
    + simpl. rewrite Nat.sub_0_r, drop_all, firstn_all. by rewrite decide_True.
  - simpl. rewrite Nat.sub_0_r, drop_all, firstn_all. by rewrite decide_True.
Qed.

Lemma stem_suffix (n : pystr) : name_stem n ++ name_suffix n = n.
Proof.
  unfold name_suffix, name_stem. destruct (rfind 46 n) as [i|].
  - destruct (has_suffix_at n i); [apply take_drop|apply app_nil_r].
  - apply app_nil_r.
Qed.

(** The name [stem + str(k) + suffix] has the suffix of [n], unless
    [n] ends in a dot. *)
Lemma suffix_indexed (n : pystr) (k : nat) :
  last n ≠ Some 46 →
  name_suffix (name_stem n ++ str k ++ name_suffix n) = name_suffix n.
Proof.
  intros Hlast.
  destruct (rfind 46 n) as [i|] eqn:Hi.
  - destruct (has_suffix_at n i) eqn:Hs.
    + assert (Hsuf : name_suffix n = drop i n)
        by (unfold name_suffix; by rewrite Hi, Hs).
      assert (Hstem : name_stem n = take i n)
        by (unfold name_stem; by rewrite Hi, Hs).
      rewrite Hsuf, Hstem.
      destruct (rfind_Some _ _ _ Hi) as (e & He & Hne & Hlt).
      rewrite He. apply rfind_None in Hne.
      assert (Hlen : length n = (i + S (length e))%nat).
      { rewrite <- (take_drop i n) at 1. rewrite He, length_app, length_take.
        simpl. lia. }
      unfold has_suffix_at in Hs.
      apply andb_true_iff in Hs as [Hs1%Nat.ltb_lt Hs2%Nat.ltb_lt].
      assert (e ≠ []) as Hnonempty.
      { intros ->. simpl in Hlen. lia. }
      assert (Hlen2 : length (take i n ++ str k) = (i + length (str k))%nat).
      { rewrite length_app, length_take. lia. }
      unfold name_suffix.
      rewrite app_assoc, rfind_app. simpl. rewrite Hne. simpl.
      rewrite Hlen2, Nat.add_0_r.
      unfold has_suffix_at.
      assert (Hlen3 : length ((take i n ++ str k) ++ 46 :: e)
                      = (i + length (str k) + S (length e))%nat).
      { rewrite length_app, Hlen2. simpl. lia. }
      rewrite Hlen3.
      assert ((0 <? i + length (str k))%nat = true) as ->
        by (apply Nat.ltb_lt; lia).
      assert ((i + length (str k) <?
               i + length (str k) + S (length e) - 1)%nat = true) as ->.
      { apply Nat.ltb_lt. destruct e; [done|]. simpl. lia. }
      simpl. rewrite <- Hlen2. by rewrite drop_app_length.
    + assert (Hsuf : name_suffix n = [])
        by (unfold name_suffix; by rewrite Hi, Hs).
      assert (Hstem : name_stem n = n)
        by (unfold name_stem; by rewrite Hi, Hs).
      rewrite Hsuf, Hstem. unfold name_suffix.
      rewrite app_nil_r, rfind_app, str_no_dot, Hi.
      destruct (rfind_Some _ _ _ Hi) as (e & He & Hne & Hlt).
      unfold has_suffix_at in *.
      destruct i as [|i]; [done|].
      assert (S i = length n - 1)%nat as Hend.
      { apply andb_false_iff in Hs as [Hs%Nat.ltb_ge|Hs%Nat.ltb_ge]; lia. }
      exfalso. apply Hlast.
      rewrite <- (take_drop (S i) n), He.
      assert (e = []) as ->.
      { apply (f_equal length) in He. rewrite length_drop in He.
        simpl in He. destruct e; [done|]. simpl in He. lia. }
      by rewrite last_snoc.
  - assert (Hsuf : name_suffix n = [])
      by (unfold name_suffix; by rewrite Hi).
    assert (Hstem : name_stem n = n)
      by (unfold name_stem; by rewrite Hi).
    rewrite Hsuf, Hstem. unfold name_suffix.
    by rewrite app_nil_r, rfind_app, str_no_dot, Hi.
Qed.

Lemma name_snoc (p : Path) (n : pystr) : name (p ++ [n]) = n.
Proof. unfold name. by rewrite last_snoc. Qed.

Lemma parent_snoc (p : Path) (n : pystr) : parent (p ++ [n]) = p.
Proof. apply removelast_last. Qed.

Lemma name_nonempty_inv (p : Path) :
  name p ≠ [] → p = parent p ++ [name p].
Proof.
  destruct p as [|x p _] using rev_ind; [done|].
  by rewrite name_snoc, parent_snoc.
Qed.

(** A new name with an index in it is a single component. *)
Lemma indexed_name_valid (a b : pystr) (k : nat) :
  ¬ (a ++ str k ++ b = [] ∨ a ++ str k ++ b = u ".").
Proof.
  pose proof (str_nonempty k) as Hne. pose proof (str_digits k) as Hd.
  destruct (str k) as [|c l]; [done|].
  apply Forall_inv in Hd.
  intros [Heq|Heq].
  - by destruct a.
  - destruct a as [|x [|? a]]; simpl in Heq.
    + injection Heq as -> _. by vm_compute in Hd.
    + by injection Heq.
    + by injection Heq.
Qed.

End PathFacts.

(** Closing a goal by evaluation in the virtual machine: the two sides
    are compared as values, without writing the result back as a term. *)
Ltac vm_refl :=
  cbv zeta;
  lazymatch goal with
  | |- @eq ?T _ ?b => vm_cast_no_check (@eq_refl T b)
  end.

Ltac vm_true := vm_cast_no_check I.

(** A result is known from its two components. *)
Lemma res_eta {A S} (x : Res A * S) (a : A) :
  x.1 = Ret a → x = (Ret a, x.2).
Proof. destruct x as [r s]. simpl. by intros ->. Qed.

Lemma res_eta_raise {A S} (x : Res A * S) (e : Exn) :
  x.1 = Raise e → x = (Raise e, x.2).
Proof. destruct x as [r s]. simpl. by intros ->. Qed.

Lemma set_world_id (s : State) : set_world (λ _, world s) s = s.
Proof. by destruct s. Qed.

Lemma main_eta (x : Res Z * option State) (z : Z) (d : State) :
  x.1 = Ret z → match x.2 with Some _ => true | None => false end = true →
  x = (Ret z, Some (default d x.2)).
Proof. destruct x as [r [s|]]; simpl; by intros -> ?. Qed.

Ltac vm_main := apply main_eta; vm_refl.

(** Unfolding of the monad's operations. *)
Ltac monad_unfold :=
  unfold mbind, M_bind, mret, M_ret, get, modify, raise, out_of_fuel,
    fs_read, fs_call, try_except_OSError, try_except in *.

(** ** gen_unique_name *)
Module UniqueNameFacts.
Import PurePath CleanFolder PathFacts.

(** The three answers of [exists]. *)
Lemma exists_true (w : World) (p : Path) :
  Fs.exists_ w p = inr true
  ↔ Fs.stat_error w p = None ∧ is_Some (nodes w !! p).
Proof.
  unfold Fs.exists_, Fs.stat. destruct (Fs.stat_error w p) as [e|].
  - split; [done|]. by intros [? _].
  - split.
    + intros [= Hb]. by apply bool_decide_eq_true in Hb.
    + intros [_ Hs]. f_equal. by apply bool_decide_eq_true.
Qed.

Lemma exists_false (w : World) (p : Path) :
  Fs.exists_ w p = inr false
  ↔ Fs.stat_error w p = None ∧ nodes w !! p = None.
Proof.
  unfold Fs.exists_, Fs.stat. destruct (Fs.stat_error w p) as [e|].
  - split; [done|]. by intros [? _].
  - split.
    + intros [= Hb]. apply bool_decide_eq_false in Hb.
      by apply eq_None_not_Some in Hb.
    + intros [_ Hs]. f_equal. apply bool_decide_eq_false.
      by apply eq_None_not_Some.
Qed.

Lemma exists_raises (w : World) (p : Path) (e : Exn) :
  Fs.exists_ w p = inl e ↔ Fs.stat_error w p = Some e.
Proof.
  unfold Fs.exists_, Fs.stat. destruct (Fs.stat_error w p) as [e'|].
  - split; by intros [= ->].
  - done.
Qed.

Lemma exists_reached (w : World) (p : Path) :
  Fs.stat_error w p = None →
  Fs.exists_ w p = inr (bool_decide (is_Some (nodes w !! p))).
Proof. intros Hp. unfold Fs.exists_, Fs.stat. by rewrite Hp. Qed.

(** A new entry that is not a directory changes the walk of no path. *)
Lemma stat_walk_insert (w : World) (q : Path) (c : N) (pre rest : Path) :
  nodes w !! q ≠ Some Dir →
  Fs.stat_walk (set_nodes w (<[q := File c]> (nodes w))) pre rest
  = Fs.stat_walk w pre rest.
Proof.
  intros Hq. revert pre.
  induction rest as [|n rest IH]; intros pre; simpl; [done|].
  destruct (decide (pre ∈ unsearchable w)); [done|].
  change (Fs.too_long (set_nodes w (<[q := File c]> (nodes w))) n)
    with (Fs.too_long w n).
  destruct (Fs.too_long w n); [done|].
  destruct (decide (q = pre ++ [n])) as [->|Hne].
  - rewrite lookup_insert_eq.
    by destruct (nodes w !! (pre ++ [n])) as [[c'|]|].
  - rewrite lookup_insert_ne by done.
    destruct (nodes w !! (pre ++ [n])) as [[c'|]|]; [done|apply IH|done].
Qed.

Lemma stat_error_insert (w : World) (q p : Path) (c : N) :
  nodes w !! q ≠ Some Dir →
  Fs.stat_error (set_nodes w (<[q := File c]> (nodes w))) p
  = Fs.stat_error w p.
Proof. apply stat_walk_insert. Qed.

(** [gen_unique_name] leaves the state as it is. It raises the
    [ValueError] of [with_name], for a path without a name, or what
    [exists] has raised. The path it returns is the one it was given or
    has a name, and [exists] has answered [False] for it. *)
Lemma gen_unique_loop_cases (fuel : nat) (start_name : pystr) (idx : nat)
    (new_path : Path) (s : State) :
  match gen_unique_loop fuel start_name idx new_path s with
  | (Ret p, s') => s' = s ∧ (p = new_path ∨ name p ≠ [])
                  ∧ Fs.exists_ (world s) p = inr false
  | (Raise e, s') => s' = s
                    ∧ ((e = ValueError ∧ name new_path = [])
                       ∨ ∃ p, Fs.exists_ (world s) p = inl e)
  | (OutOfFuel, s') => s' = s
  end.
Proof.
  revert idx new_path. induction fuel as [|fuel IH]; intros idx new_path.
  - simpl. monad_unfold.
    destruct (Fs.exists_ (world s) new_path) as [e|[|]] eqn:He; simpl; eauto.
  - simpl. monad_unfold.
    destruct (Fs.exists_ (world s) new_path) as [e|[|]] eqn:He; simpl;
      [eauto| |auto].
    unfold with_name.
    destruct (decide (name new_path = [])) as [Hn|Hn]; [by auto|].
    rewrite decide_False by apply indexed_name_valid.
    specialize (IH (idx + 1)%nat
      (parent new_path ++ [start_name ++ str (idx + 1) ++ suffix new_path])).
    destruct (gen_unique_loop _ _ _ _ s) as [[p|e|] s'].
    + destruct IH as (-> & [->|Hp] & Hex); split_and!; try done; right; [|done].
      rewrite name_snoc. intros Heq. eapply indexed_name_valid. left. exact Heq.
    + destruct IH as (-> & [[_ Hname]|Hp]); [|by auto].
      rewrite name_snoc in Hname.
      exfalso. eapply indexed_name_valid. left. exact Hname.
    + done.
Qed.

Section candidates.
Variable path : Path.
Hypothesis Hname : name path ≠ [].
Hypothesis Hdot : last (name path) ≠ Some 46.

Lemma candidate_suffix (k : nat) : suffix (candidate path k) = suffix path.
Proof.
  destruct k as [|k]; [done|]. unfold suffix, candidate.
  rewrite name_snoc. by apply suffix_indexed.
Qed.

Lemma candidate_name (k : nat) : name (candidate path k) ≠ [].
Proof.
  destruct k as [|k]; [done|]. unfold candidate. rewrite name_snoc.
  intros Heq. eapply indexed_name_valid. left. exact Heq.
Qed.

Lemma candidate_parent (k : nat) :
  parent (candidate path k) = parent path.
Proof. destruct k; [done|]. apply parent_snoc. Qed.

Lemma candidate_with_name (k : nat) :
  with_name (candidate path k)
            (stem path ++ str (k + 1) ++ suffix (candidate path k))
  = inr (candidate path (k + 1)).
Proof.
  unfold with_name.
  rewrite decide_False by apply candidate_name.
  rewrite decide_False by apply indexed_name_valid.
  rewrite candidate_parent, candidate_suffix.
  by rewrite Nat.add_1_r.
Qed.

(** The loop goes on while [exists] answers [True], and stops at the
    first candidate for which it does not: that candidate is returned
    when the answer is [False], and what [exists] raises is raised. *)
Lemma gen_unique_loop_stops (s : State) (fuel idx k : nat) :
  (idx ≤ k)%nat → (k - idx ≤ fuel)%nat →
  (∀ j, (idx ≤ j < k)%nat →
        Fs.exists_ (world s) (candidate path j) = inr true) →
  Fs.exists_ (world s) (candidate path k) ≠ inr true →
  gen_unique_loop fuel (stem path) idx (candidate path idx) s
  = match Fs.exists_ (world s) (candidate path k) with
    | inl e => (Raise e, s)
    | inr _ => (Ret (candidate path k), s)
    end.
Proof.
  revert idx. induction fuel as [|fuel IH]; intros idx Hle Hfuel Hall Hstop.
  - assert (k = idx) as -> by lia.
    simpl. monad_unfold.
    by destruct (Fs.exists_ (world s) (candidate path idx)) as [e|[|]].
  - simpl. monad_unfold.
    destruct (decide (idx = k)) as [->|Hne].
    + by destruct (Fs.exists_ (world s) (candidate path k)) as [e|[|]].
    + rewrite Hall by lia. rewrite candidate_with_name.
      apply IH; [lia|lia| |done]. intros j Hj. apply Hall. lia.
Qed.

Lemma gen_unique_loop_least (s : State) (fuel idx k : nat) :
  (idx ≤ k)%nat → (k - idx ≤ fuel)%nat →
  (∀ j, (idx ≤ j < k)%nat →
        Fs.exists_ (world s) (candidate path j) = inr true) →
  Fs.exists_ (world s) (candidate path k) = inr false →
  gen_unique_loop fuel (stem path) idx (candidate path idx) s
  = (Ret (candidate path k), s).
Proof.
  intros Hle Hfuel Hall Hfree.
  rewrite (gen_unique_loop_stops s fuel idx k) by (done || by rewrite Hfree).
  by rewrite Hfree.
Qed.

Lemma candidate_inj (j k : nat) :
  (0 < j)%nat → (0 < k)%nat → candidate path j = candidate path k → j = k.
Proof.
  destruct j as [|j], k as [|k]; try lia. intros _ _. unfold candidate.
  intros Heq%app_inv_head. injection Heq as Heq.
  apply app_inv_head, app_inv_tail in Heq. by apply str_inj.
Qed.

(** Among the first [size + 1] indexed candidates one is free. *)
Lemma candidates_not_all_taken (w : World) (n : nat) :
  (∀ j, (1 ≤ j ≤ n)%nat → Fs.exists_ w (candidate path j) = inr true) →
  (n ≤ size (nodes w))%nat.
Proof.
  intros Hall.
  set (l := candidate path <$> seq 1 n).
  assert (NoDup l) as Hnd.
  { apply NoDup_fmap_2_strong; [|apply NoDup_seq].
    intros j k Hj%elem_of_seq Hk%elem_of_seq. apply candidate_inj; lia. }
  assert (l ⊆+ (map_to_list (nodes w)).*1) as Hsub.
  { apply NoDup_submseteq; [done|]. intros p Hp.
    apply list_elem_of_fmap in Hp as (j & -> & Hj%elem_of_seq).
    specialize (Hall j ltac:(lia)).
    apply exists_true in Hall as [_ [v Hv]].
    apply list_elem_of_fmap. exists (candidate path j, v).
    split; [done|]. by apply elem_of_map_to_list. }
  apply submseteq_length in Hsub.
  unfold l in Hsub.
  rewrite !length_fmap, length_seq, length_map_to_list in Hsub. done.
Qed.

Lemma least_stop (w : World) (n : nat) :
  (∃ k, (k ≤ n)%nat ∧ Fs.exists_ w (candidate path k) ≠ inr true
        ∧ ∀ j, (j < k)%nat → Fs.exists_ w (candidate path j) = inr true)
  ∨ (∀ j, (j ≤ n)%nat → Fs.exists_ w (candidate path j) = inr true).
Proof.
  induction n as [|n [(k & Hk & Hfree & Hall)|Hall]].
  - destruct (decide (Fs.exists_ w (candidate path 0) = inr true)) as [He|He].
    + right. intros j Hj. by assert (j = 0)%nat as -> by lia.
    + left. exists 0%nat. split_and!; [lia|done|]. intros j Hj. lia.
  - left. exists k. split_and!; [lia|done|done].
  - destruct (decide (Fs.exists_ w (candidate path (S n)) = inr true))
      as [He|He].
    + right. intros j Hj. destruct (decide (j = S n)) as [->|?]; [done|].
      apply Hall. lia.
    + left. exists (S n). split_and!; [lia|done|].
      intros j Hj. apply Hall. lia.
Qed.

(** [gen_unique_name] ends, given fuel for one more step than the file
    system has entries, at the first candidate for which [exists] does
    not answer [True]. *)
Lemma gen_unique_name_outcome (s : State) (fuel : nat) :
  (size (nodes (world s)) + 1 ≤ fuel)%nat →
  ∃ k, (k ≤ size (nodes (world s)) + 1)%nat
       ∧ (∀ j, (j < k)%nat →
               Fs.exists_ (world s) (candidate path j) = inr true)
       ∧ Fs.exists_ (world s) (candidate path k) ≠ inr true
       ∧ gen_unique_name fuel path s
         = match Fs.exists_ (world s) (candidate path k) with
           | inl e => (Raise e, s)
           | inr _ => (Ret (candidate path k), s)
           end.
Proof.
  intros Hfuel.
  destruct (least_stop (world s) (size (nodes (world s)) + 1))
    as [(k & Hk & Hstop & Hall)|Hall].
  - exists k. split_and!; try done.
    unfold gen_unique_name. fold (suffix path).
    rewrite removesuffix_stem. fold (stem path).
    apply (gen_unique_loop_stops s fuel 0 k); [lia|lia| |done].
    intros j Hj. apply Hall. lia.
  - exfalso.
    pose proof (candidates_not_all_taken (world s)
                  (size (nodes (world s)) + 1)) as Hsize.
    assert (size (nodes (world s)) + 1 ≤ size (nodes (world s)))%nat; [|lia].
    apply Hsize. intros j Hj. apply Hall. lia.
Qed.

(** When [exists] raises on none of the candidates, the first that is
    free is returned. *)
Lemma gen_unique_name_least (s : State) (fuel : nat) :
  (size (nodes (world s)) + 1 ≤ fuel)%nat →
  (∀ j, (j ≤ size (nodes (world s)) + 1)%nat →
        Fs.stat_error (world s) (candidate path j) = None) →
  ∃ k, gen_unique_name fuel path s = (Ret (candidate path k), s)
       ∧ (k ≤ size (nodes (world s)) + 1)%nat
       ∧ Fs.exists_ (world s) (candidate path k) = inr false
       ∧ (∀ j, (j < k)%nat →
               Fs.exists_ (world s) (candidate path j) = inr true).
Proof.
  intros Hfuel Hstat.
  destruct (gen_unique_name_outcome s fuel Hfuel)
    as (k & Hk & Hall & Hstop & Hgen).
  exists k. rewrite Hgen.
  rewrite (exists_reached _ _ (Hstat k Hk)) in *.
  destruct (bool_decide _); [done|]. by split_and!.
Qed.

Lemma touch_free (s : State) (p : Path) :
  parent p = parent path →
  nodes (world s) !! parent path = Some Dir →
  parent path ∉ readonly (world s) →
  Fs.exists_ (world s) p = inr false →
  fs_call (λ w, Fs.touch w p) s
  = (Ret tt, set_world (λ w, set_nodes w (<[p := File 0]> (nodes w))) s).
Proof.
  intros Hp Hdir Hro [_ Hfree]%exists_false. monad_unfold.
  unfold Fs.touch, Fs.check_parent. rewrite Hfree, Hp, Hdir.
  by rewrite decide_False.
Qed.

(** Successive calls return candidates of strictly increasing index,
    none of which existed before. *)
Lemma successive_unique_names_increasing (n : nat) :
  ∀ (s : State) (lo fuel : nat),
  nodes (world s) !! parent path = Some Dir →
  parent path ∉ readonly (world s) →
  (∀ j, (j ≤ size (nodes (world s)) + n)%nat →
        Fs.stat_error (world s) (candidate path j) = None) →
  (∀ j, (j < lo)%nat →
        Fs.exists_ (world s) (candidate path j) = inr true) →
  (size (nodes (world s)) + n ≤ fuel)%nat →
  ∃ ks s', successive_unique_names fuel n path s
           = (Ret (candidate path <$> ks), s')
    ∧ length ks = n
    ∧ StronglySorted lt ks
    ∧ Forall (λ k, (lo ≤ k)%nat) ks
    ∧ Forall (λ p, Fs.exists_ (world s) p = inr false)
             (candidate path <$> ks)
    ∧ NoDup (candidate path <$> ks).
Proof.
  induction n as [|n IH]; intros s lo fuel Hdir Hro Hstat Hlo Hfuel.
  - exists [], s. simpl. split_and!; try done; constructor.
  - destruct (gen_unique_name_least s fuel ltac:(lia))
      as (k & Hgen & Hk & Hfree & Hall).
    { intros j Hj. apply Hstat. lia. }
    assert (lo ≤ k)%nat as Hlok.
    { destruct (decide (lo ≤ k)%nat) as [|Hlt]; [done|].
      rewrite Hlo in Hfree by lia. done. }
    pose proof Hfree as [_ Hnone]%exists_false.
    set (s1 := set_world (λ w, set_nodes w
                  (<[candidate path k := File 0]> (nodes w))) s).
    assert (Hsame : ∀ p, Fs.stat_error (world s1) p
                         = Fs.stat_error (world s) p).
    { intros p. apply stat_error_insert. by rewrite Hnone. }
    assert (Hmono : ∀ p, Fs.exists_ (world s) p = inr true →
                         Fs.exists_ (world s1) p = inr true).
    { intros p [Hp [v Hv]]%exists_true. apply exists_true.
      rewrite Hsame. split; [done|]. simpl.
      destruct (decide (candidate path k = p)) as [<-|Hne].
      - rewrite lookup_insert_eq. by eexists.
      - rewrite lookup_insert_ne by done. by eexists. }
    assert (Hnew : Fs.exists_ (world s1) (candidate path k) = inr true).
    { apply exists_true. rewrite Hsame. split; [by apply Hstat; lia|].
      simpl. rewrite lookup_insert_eq. by eexists. }
    assert (size (nodes (world s1)) = S (size (nodes (world s)))) as Hsize.
    { simpl. by rewrite map_size_insert_None. }
    destruct (IH s1 (S k) fuel) as (ks & s' & Hrest & Hlen & Hsorted
                                    & Hge & Hfresh & Hnd).
    { simpl. rewrite lookup_insert_ne; [done|].
      intros Heq. rewrite Heq in Hnone. congruence. }
    { done. }
    { intros j Hj. rewrite Hsame. apply Hstat. lia. }
    { intros j Hj. destruct (decide (j = k)) as [->|Hne]; [done|].
      apply Hmono, Hall. lia. }
    { lia. }
    exists (k :: ks), s'. split_and!.
    + simpl. monad_unfold. rewrite Hgen.
      pose proof (touch_free s (candidate path k) (candidate_parent k)
                    Hdir Hro Hfree) as Htouch.
      monad_unfold. fold s1 in Htouch.
      destruct (Fs.touch (world s) (candidate path k)) as [e|w'] eqn:Hw;
        [done|].
      injection Htouch as Htouch.
      assert (set_world (λ _, w') s = s1) as -> by (by subst w').
      by rewrite Hrest.
    + simpl. by rewrite Hlen.
    + constructor; [done|]. eapply Forall_impl; [exact Hge|].
      intros j Hj. simpl in Hj. lia.
    + constructor; [done|]. eapply Forall_impl; [exact Hge|].
      intros j Hj. simpl in Hj. lia.
    + rewrite fmap_cons. constructor; [done|].
      eapply Forall_impl; [exact Hfresh|]. intros p Hp. cbv beta in Hp.
      apply exists_false in Hp as [Hp Hpn]. apply exists_false.
      rewrite Hsame in Hp. split; [done|]. simpl in Hpn.
      destruct (decide (candidate path k = p)) as [<-|Hne].
      * by rewrite lookup_insert_eq in Hpn.
      * by rewrite lookup_insert_ne in Hpn.
    + rewrite fmap_cons. constructor; [|done].
      intros Hin. rewrite Forall_forall in Hfresh.
      specialize (Hfresh _ Hin). congruence.
Qed.
End candidates.

(** C4, as amended. For a path whose name is not empty and does not end
    in a dot, [gen_unique_name] tries [path], [stem1.ext], [stem2.ext],
    ... in turn for as long as [exists] answers [True] (given fuel for
    one step more than the file system has entries). At the first name
    for which it does not, the name is returned if the answer is
    [False], and the exception is raised if [exists] raises: pathlib
    hands on [PermissionError], for a name in a directory that cannot be
    searched, and the [OSError] for a name that is too long. So when
    [exists] raises on none of the names tried, the first name that does
    not exist is returned, with an index of at least 1 when [path]
    exists; and [n] successive calls in one thread, each returned name
    being taken before the next call, return [n] distinct paths
    [stemk.ext] of strictly increasing index [k >= 1]. *)
Theorem gen_unique_name_spec (path : Path) (s : State) (fuel n : nat) :
  name path ≠ [] → last (name path) ≠ Some 46 →
  (size (nodes (world s)) + n + 1 ≤ fuel)%nat →
  (∃ k, (∀ j, (j < k)%nat →
              Fs.exists_ (world s) (candidate path j) = inr true)
        ∧ match Fs.exists_ (world s) (candidate path k) with
          | inr true => False
          | inr false =>
              gen_unique_name fuel path s = (Ret (candidate path k), s)
          | inl e => gen_unique_name fuel path s = (Raise e, s)
          end)
  ∧ ((∀ j, (j ≤ size (nodes (world s)) + n + 1)%nat →
           Fs.stat_error (world s) (candidate path j) = None) →
     (∃ k, gen_unique_name fuel path s = (Ret (candidate path k), s)
           ∧ Fs.exists_ (world s) (candidate path k) = inr false
           ∧ (∀ j, (j < k)%nat →
                   Fs.exists_ (world s) (candidate path j) = inr true)
           ∧ (Fs.exists_ (world s) path = inr true → (1 ≤ k)%nat))
     ∧ (nodes (world s) !! parent path = Some Dir →
        parent path ∉ readonly (world s) →
        Fs.exists_ (world s) path = inr true →
        ∃ ks s', successive_unique_names fuel n path s
                 = (Ret (candidate path <$> ks), s')
          ∧ length ks = n
          ∧ StronglySorted lt ks
          ∧ Forall (λ k, (1 ≤ k)%nat) ks
          ∧ NoDup (candidate path <$> ks))).
Proof.
  intros Hname Hdot Hfuel. split; [|intros Hstat; split].
  - destruct (gen_unique_name_outcome path Hname Hdot s fuel ltac:(lia))
      as (k & _ & Hall & Hstop & Hgen).
    exists k. split; [done|].
    by destruct (Fs.exists_ (world s) (candidate path k)) as [e|[|]].
  - destruct (gen_unique_name_least path Hname Hdot s fuel ltac:(lia))
      as (k & Hgen & _ & Hfree & Hall).
    { intros j Hj. apply Hstat. lia. }
    exists k. split_and!; try done.
    intros Hex. destruct k; [|lia]. simpl in Hfree. congruence.
  - intros Hdir Hro Hex.
    destruct (successive_unique_names_increasing path Hname Hdot n s 1 fuel)
      as (ks & s' & Hrun & Hlen & Hsorted & Hge & _ & Hnd);
      [done|done| | |lia|].
    + intros j Hj. apply Hstat. lia.
    + intros j Hj. by assert (j = 0)%nat as -> by lia.
    + exists ks, s'. done.
Qed.

Lemma gen_unique_name_spec_witness :
  let s := CleanFolder.new Examples.one_file Examples.tresh in
  let path := segments ["tresh"; "a.txt"] in
  ∃ ks s', successive_unique_names 7 3 path s
           = (Ret (candidate path <$> ks), s')
    ∧ length ks = 3%nat
    ∧ StronglySorted lt ks
    ∧ Forall (λ k, (1 ≤ k)%nat) ks
    ∧ NoDup (candidate path <$> ks).
Proof.
  apply (gen_unique_name_spec (segments ["tresh"; "a.txt"])
           (CleanFolder.new Examples.one_file Examples.tresh) 7 3).
  - by vm_compute.
  - by vm_compute.
  - vm_compute. lia.
  - intros j Hj.
    assert (size (nodes (world (new Examples.one_file Examples.tresh)))
            = 3%nat) as Hsize by vm_refl.
    rewrite Hsize in Hj.
    do 8 (destruct j as [|j]; [vm_refl|]). lia.
  - by vm_compute.
  - by vm_compute.
  - by vm_compute.
Defined.

(** C4 as stated fails for a name that ends in a dot: with ["a."] and
    ["a.1"] taken, the second name tried is ["a.2.1"], the suffix being
    read off the previous candidate, which fits [stem + str(k) + ext]
    for no [k]. For [Path('.')], which has no name, [with_name] raises
    [ValueError]. And for a name of 255 bytes that is taken, the next
    name has 256 bytes, [exists] raises [OSError] (ENAMETOOLONG), and
    no path is returned. *)
Lemma gen_unique_name_trailing_dot :
  let s := CleanFolder.new Examples.trailing_dot Examples.tresh in
  let path := segments ["tresh"; "a."] in
  gen_unique_name 10 path s = (Ret (segments ["tresh"; "a.2.1"]), s)
  ∧ (¬ ∃ k, segments ["tresh"; "a.2.1"] = candidate path k)
  ∧ gen_unique_name 10 [] s = (Raise ValueError, s)
  ∧ (let s := CleanFolder.new Examples.long_name Examples.tresh in
     gen_unique_name 10 (Examples.tresh ++ [replicate 255 120]) s
     = (Raise OSError_ENAMETOOLONG, s)).
Proof.
  split_and!.
  - vm_refl.
  - intros [[|k] Hk]; [by vm_compute in Hk|].
    unfold candidate in Hk.
    change (parent (segments ["tresh"; "a."])) with (segments ["tresh"]) in Hk.
    change (stem (segments ["tresh"; "a."])) with (u "a.") in Hk.
    change (suffix (segments ["tresh"; "a."])) with (@nil N) in Hk.
    rewrite app_nil_r in Hk.
    assert (Hstr : str (S k) = [50; 46; 49]).
    { vm_compute in Hk. injection Hk as Hk. by vm_compute. }
    pose proof (str_digits (S k)) as Hd. rewrite Hstr in Hd.
    apply Forall_cons_1 in Hd as [_ Hd]. apply Forall_inv in Hd.
    by vm_compute in Hd.
  - vm_refl.
  - vm_refl.
Qed.

End UniqueNameFacts.

(** ** move_file *)
Module MoveFacts.
Import PurePath CleanFolder PathFacts UniqueNameFacts.

Lemma gen_unique_name_free (fuel : nat) (path : Path) (s : State) :
  Fs.exists_ (world s) path = inr false →
  gen_unique_name fuel path s = (Ret path, s).
Proof.
  intros Hfree. unfold gen_unique_name.
  destruct fuel; simpl; monad_unfold; by rewrite Hfree.
Qed.

Lemma gen_unique_name_cases (fuel : nat) (path : Path) (s : State) :
  match gen_unique_name fuel path s with
  | (Ret p, s') => s' = s ∧ (p = path ∨ name p ≠ [])
                  ∧ Fs.exists_ (world s) p = inr false
  | (Raise e, s') => s' = s
                    ∧ ((e = ValueError ∧ name path = [])
                       ∨ ∃ p, Fs.exists_ (world s) p = inl e)
  | (OutOfFuel, s') => s' = s
  end.
Proof. apply gen_unique_loop_cases. Qed.

(** One turn of the loop. *)
Lemma move_file_step (fuel : nat) (old_path new_path : Path) (s : State) :
  move_file (S fuel) old_path new_path s
  = match Fs.rename (world s) old_path new_path with
    | inr w => (Ret tt, set_world (λ _, w) s)
    | inl _ => (new_path ← gen_unique_name fuel new_path;
                move_file fuel old_path new_path) s
    end.
Proof.
  simpl. unfold try_except, fs_call.
  by destruct (Fs.rename (world s) old_path new_path).
Qed.

(** What leaves [move_file] is what [gen_unique_name] has raised in
    the handler: the error of [rename] itself is dropped. *)
Lemma move_file_raises (fuel : nat) (old_path : Path) :
  ∀ (new_path : Path) (s s' : State) (e : Exn),
  move_file fuel old_path new_path s = (Raise e, s') →
  s' = s ∧ ((e = ValueError ∧ name new_path = [])
            ∨ ∃ p, Fs.exists_ (world s) p = inl e).
Proof.
  induction fuel as [|fuel IH]; intros new_path s s' e.
  - simpl. unfold out_of_fuel. done.
  - rewrite move_file_step.
    destruct (Fs.rename (world s) old_path new_path) as [e'|w]; [|done].
    unfold mbind, M_bind.
    pose proof (gen_unique_name_cases fuel new_path s) as Hgen.
    destruct (gen_unique_name fuel new_path s) as [[p|e''|] s''].
    + destruct Hgen as (-> & Hp & _). intros Hmove.
      destruct (IH _ _ _ _ Hmove) as (-> & [[-> Hname]|Hex]); [|by auto].
      destruct Hp as [->|Hp]; [by auto|done].
    + destruct Hgen as (-> & Hcases). by intros [= <- <-].
    + done.
Qed.

(** While [rename] fails and the destination is free, the loop tries
    the same destination again, with no end. *)
Lemma move_file_diverges (fuel : nat) (old_path new_path : Path)
    (s : State) (e : Exn) :
  Fs.rename (world s) old_path new_path = inl e →
  Fs.exists_ (world s) new_path = inr false →
  move_file fuel old_path new_path s = (OutOfFuel, s).
Proof.
  intros Hrename Hfree. induction fuel as [|fuel IH]; [done|].
  rewrite move_file_step, Hrename. unfold mbind, M_bind.
  by rewrite gen_unique_name_free.
Qed.

(** C2 holds of no run in which [rename] fails for another reason than
    a collision: the bare [except] of [move_file] catches every
    exception, and the docstring of the method knows of one, a file of
    that name in the destination. In [locked_documents] the folder
    [documents] takes no new entry: [rename] raises [PermissionError],
    the handler asks [gen_unique_name] for a name, [exists] answers
    [False] for the destination, the same destination is tried again,
    and [move_file] neither returns nor raises, whatever the fuel. *)
Theorem move_file_permission_denied :
  let s := CleanFolder.new Examples.locked_documents Examples.tresh in
  let old_path := segments ["tresh"; "x.txt"] in
  let new_path := segments ["tresh"; "documents"; "x.txt"] in
  Fs.rename (world s) old_path new_path = inl PermissionError
  ∧ Fs.exists_ (world s) new_path = inr false
  ∧ gen_unique_name 0 new_path s = (Ret new_path, s)
  ∧ ∀ fuel, move_file fuel old_path new_path s = (OutOfFuel, s).
Proof.
  split; [by vm_compute|]. split; [by vm_compute|].
  split; [by vm_compute|]. intros fuel.
  by apply (move_file_diverges fuel _ _ _ PermissionError); vm_compute.
Qed.

End MoveFacts.

(** ** Runs of the whole script *)
Module RunFacts.
Import PurePath CleanFolder Examples.

(** C1 fails on POSIX, where [rename] replaces an existing file and
    raises nothing: ["a b.txt"] and ["a_b.txt"] both go to
    [documents/a_b.txt], the second move replaces the first file, and
    the content of one of the two files is in no file after the run. *)
Theorem same_name_posix_overwrites :
  ∃ s, main 20 argv (same_name Posix) = (Ret 0%Z, Some s)
       ∧ Fs.children (world s) (segments ["tresh"; "documents"])
         = [segments ["tresh"; "documents"; "a_b.txt"]]
       ∧ Fs.children (world s) tresh = [segments ["tresh"; "documents"]]
       ∧ nodes (world s) !! segments ["tresh"; "documents"; "a_b.txt"]
         = Some (File 2)
       ∧ map_Forall (λ _ v, v ≠ File 1) (nodes (world s)).
Proof.
  exists (default (new (same_name Posix) tresh)
            (main 20 argv (same_name Posix)).2).
  split_and!; [vm_main|vm_refl|vm_refl|vm_refl|].
  apply (bool_decide_unpack _). vm_true.
Qed.

(** Where [rename] raises on an existing destination, the retry of
    [move_file] finds [a_b1.txt] and both files are kept. *)
Lemma same_name_windows_keeps_both :
  ∃ s, main 20 argv (same_name Windows) = (Ret 0%Z, Some s)
       ∧ nodes (world s) !! segments ["tresh"; "documents"; "a_b.txt"]
         = Some (File 1)
       ∧ nodes (world s) !! segments ["tresh"; "documents"; "a_b1.txt"]
         = Some (File 2).
Proof.
  exists (default (new (same_name Windows) tresh)
            (main 20 argv (same_name Windows)).2).
  split_and!; [vm_main|vm_refl|vm_refl].
Qed.

(** A directory that [iterdir] lists is one [exists] reaches. *)
Lemma iterdir_exists (w : World) (p : Path) (entries : list Path) :
  Fs.iterdir w p = inr entries → Fs.exists_ w p = inr true.
Proof.
  unfold Fs.iterdir, Fs.exists_. by destruct (Fs.stat w p) as [e|[[c|]|]].
Qed.

Lemma iterdir_dir (w : World) (p : Path) (entries : list Path) :
  Fs.iterdir w p = inr entries →
  Fs.stat_error w p = None ∧ nodes w !! p = Some Dir
  ∧ entries = Fs.children w p.
Proof.
  unfold Fs.iterdir, Fs.stat. destruct (Fs.stat_error w p) as [e|]; [done|].
  destruct (nodes w !! p) as [[c|]|]; try done. by intros [= <-].
Qed.

(** What [handle_folders] does with a folder that exists and is not
    empty: the new name is the normal form of the stem, compared with
    the whole name. *)
Lemma handle_folder_nonempty (fuel : nat) (folder_path : Path)
    (s : State) (entries : list Path) :
  Fs.iterdir (world s) folder_path = inr entries → entries ≠ [] →
  handle_folder fuel folder_path s
  = if decide (Normalize.normalize (stem folder_path) ≠ name folder_path)
    then move_file fuel folder_path
           (joinpath (parent folder_path)
                     (Normalize.normalize (stem folder_path))) s
    else (Ret tt, s).
Proof.
  intros Hiter Hentries. unfold handle_folder. monad_unfold.
  rewrite (iterdir_exists _ _ _ Hiter).
  simpl. rewrite Hiter. simpl. rewrite decide_False by done.
  by destruct (decide _).
Qed.

(** C7 fails for a folder with a dot in its name: [v1.2], which holds
    a file, has the normal form [v1_2]; [handle_folders] normalizes the
    stem [v1] and renames the folder to [v1]. *)
Theorem dotted_folder_renamed_to_stem :
  Normalize.normalize (u "v1.2") = u "v1_2"
  ∧ ∃ s, main 20 argv dotted_folder = (Ret 0%Z, Some s)
         ∧ Fs.children (world s) tresh = [segments ["tresh"; "v1"]]
         ∧ nodes (world s) !! segments ["tresh"; "v1"; "notes.xyz"]
           = Some (File 1)
         ∧ nodes (world s) !! segments ["tresh"; "v1_2"] = None.
Proof.
  split; [vm_refl|].
  exists (default (new dotted_folder tresh) (main 20 argv dotted_folder).2).
  split_and!; [vm_main|vm_refl|vm_refl|vm_refl].
Qed.

(** A folder whose stem normalizes to the empty string is moved out of
    its parent: [sub/ъ] becomes [sub1], and [sub], left empty, is
    removed. *)
Lemma hard_sign_folder_leaves_parent :
  ∃ s, main 20 argv hard_sign_folder = (Ret 0%Z, Some s)
       ∧ Fs.children (world s) tresh = [segments ["tresh"; "sub1"]]
       ∧ nodes (world s) !! segments ["tresh"; "sub1"; "notes.xyz"]
         = Some (File 1).
Proof.
  exists (default (new hard_sign_folder tresh)
            (main 20 argv hard_sign_folder).2).
  split_and!; [vm_main|vm_refl|vm_refl].
Qed.

End RunFacts.

(** ** What the methods change *)
Module FrameFacts.
Import PurePath CleanFolder Schedule.

Lemma keeps_ret {A} (a : A) : keeps (mret a).
Proof. done. Qed.

Lemma keeps_raise {A} (e : Exn) : keeps (raise (A:=A) e).
Proof. done. Qed.

Lemma keeps_out_of_fuel {A} : keeps (out_of_fuel (A:=A)).
Proof. done. Qed.

Lemma keeps_bind {A B} (m : M A) (f : A → M B) :
  keeps m → (∀ a, keeps (f a)) → keeps (m ≫= f).
Proof.
  intros Hm Hf s. unfold mbind, M_bind. specialize (Hm s).
  destruct (m s) as [[a|e|] s1]; simpl in *; [|done|done].
  by rewrite Hf.
Qed.

(** [s ← get; f s] *)
Lemma keeps_get {A} (f : State → M A) :
  (∀ s, keeps (f s)) → keeps (get ≫= f).
Proof. intros Hf s. apply (Hf s s). Qed.

Lemma keeps_try_except {A} (body : M A) (handler : Exn → M A) :
  keeps body → (∀ e, keeps (handler e)) → keeps (try_except body handler).
Proof.
  intros Hm Hf s. unfold try_except. specialize (Hm s).
  destruct (body s) as [[a|e|] s1]; simpl in *; [done| |done].
  by rewrite Hf.
Qed.

Lemma keeps_fs_call (op : World → Exn + World) : keeps (fs_call op).
Proof. intros s. unfold fs_call. by destruct (op (world s)). Qed.

Lemma keeps_fs_read {A} (op : World → Exn + A) : keeps (fs_read op).
Proof. intros s. unfold fs_read. by destruct (op (world s)). Qed.

Lemma keeps_set_folders (f : list Path → list Path) :
  keeps (modify (set_folders f)).
Proof. done. Qed.

Lemma keeps_for_each {A} (l : list A) (body : A → M unit) :
  (∀ x, keeps (body x)) → keeps (for_each l body).
Proof.
  intros Hbody. induction l as [|x l IH]; simpl; [apply keeps_ret|].
  apply keeps_bind; [apply Hbody|done].
Qed.

Create HintDb keeps.
#[local] Hint Resolve keeps_ret keeps_raise keeps_out_of_fuel keeps_fs_call
  keeps_fs_read keeps_set_folders : keeps.

Lemma keeps_gen_unique_loop (fuel : nat) (start_name : pystr) (idx : nat)
    (new_path : Path) :
  keeps (gen_unique_loop fuel start_name idx new_path).
Proof.
  intros s.
  pose proof (UniqueNameFacts.gen_unique_loop_cases
                fuel start_name idx new_path s) as Hc.
  destruct (gen_unique_loop fuel start_name idx new_path s) as [[p|e|] s'];
    simpl; [by destruct Hc as (-> & _)|by destruct Hc as (-> & _)|by subst].
Qed.

Section methods.
Context `{Unicode} `{Shutil} `{SetOrder}.

Lemma keeps_move_file (fuel : nat) (old_path new_path : Path) :
  keeps (move_file fuel old_path new_path).
Proof.
  revert new_path. induction fuel as [|fuel IH]; intros new_path; simpl.
  - apply keeps_out_of_fuel.
  - apply keeps_try_except; [apply keeps_fs_call|]. intros _.
    apply keeps_bind; [apply keeps_gen_unique_loop|done].
Qed.

Lemma keeps_handle_archive (path : Path) : keeps (handle_archive path).
Proof.
  unfold handle_archive. apply keeps_bind; [|auto with keeps].
  intros s. by destruct (unpack_archive _ _ _) as [[e|] w].
Qed.

Lemma keeps_handle_folder (fuel : nat) (folder_path : Path) :
  keeps (handle_folder fuel folder_path).
Proof.
  unfold handle_folder. apply keeps_bind; [apply keeps_fs_read|].
  intros present. destruct (negb _); [apply keeps_ret|].
  apply keeps_bind; [apply keeps_fs_read|]. intros entries.
  destruct (decide (entries = [])) as [Hnil|Hnil].
  - unfold try_except_OSError. apply keeps_try_except; [auto with keeps|].
    intros exn. destruct (is_OSError exn); auto with keeps.
  - destruct (decide _); [apply keeps_move_file|apply keeps_ret].
Qed.

Lemma keeps_handle_folders (fuel : nat) : keeps (handle_folders fuel).
Proof.
  unfold handle_folders. apply keeps_get. intros s.
  induction (rev (folders s)) as [|folder_path stack IH]; simpl.
  - apply keeps_ret.
  - apply keeps_bind; [apply keeps_set_folders|]. intros _.
    apply keeps_bind; [apply keeps_handle_folder|done].
Qed.
End methods.


(** *** The invariant of runs *)

Lemma preserves_bind {A B} (I : State → Prop) (m : M A) (f : A → M B) :
  preserves I m → (∀ a, preserves I (f a)) → preserves I (m ≫= f).
Proof.
  intros Hm Hf s Hs. unfold mbind, M_bind. specialize (Hm s Hs).
  destruct (m s) as [[a|e|] s1]; simpl in *; [|done|done].
  by apply Hf.
Qed.

Lemma preserves_get {A} (I : State → Prop) (f : State → M A) :
  (∀ s, I s → preserves I (f s)) → preserves I (get ≫= f).
Proof. intros Hf s Hs. by apply (Hf s Hs s). Qed.

Lemma preserves_ret {A} (I : State → Prop) (a : A) : preserves I (mret a).
Proof. by intros s. Qed.

Lemma preserves_for_each {A} (I : State → Prop) (l : list A)
    (body : A → M unit) :
  (∀ x, x ∈ l → preserves I (body x)) → preserves I (for_each l body).
Proof.
  induction l as [|x l IH]; intros Hbody; simpl; [apply preserves_ret|].
  apply preserves_bind; [apply Hbody; by left|]. intros _.
  apply IH. intros y Hy. apply Hbody. by right.
Qed.

Lemma gen_formats_path_set_spec (root p : Path) :
  p ∈ gen_formats_path_set root
  ↔ ∃ file_type, file_type ∈ FORMATS_DICT.*1 ∧ p = root ++ [file_type].
Proof.
  unfold gen_formats_path_set. simpl.
  unfold joinpath. rewrite !decide_False by (by intros [?|?]).
  rewrite !elem_of_union, !elem_of_singleton, elem_of_empty.
  split.
  - intros Hin.
    repeat (destruct Hin as [Hin| ->];
            [|eexists; (split; [|done]); apply list_elem_of_In; simpl; tauto]).
    done.
  - intros (file_type & Hin & ->).
    repeat (apply elem_of_cons in Hin as [->|Hin]; [tauto|]).
    by apply elem_of_nil in Hin.
Qed.

Lemma root_not_destination (root : Path) :
  root ∉ gen_formats_path_set root.
Proof.
  intros (file_type & _ & Heq)%gen_formats_path_set_spec.
  apply (f_equal length) in Heq. rewrite length_app in Heq. simpl in Heq. lia.
Qed.

Section invariant.
Context `{Unicode} `{Shutil} `{SetOrder}.
Variable root : Path.
Variables K U : gset pystr.

Lemma invariant_fixed (s s' : State) :
  fixed s' = fixed s → invariant root K U s → invariant root K U s'.
Proof.
  unfold fixed. intros [= Hp Ht Hk Hu Hpool].
  unfold invariant, formats_partitioned.
  by rewrite Hp, Ht, Hk, Hu, Hpool.
Qed.

Lemma preserves_keeps {A} (m : M A) :
  keeps m → preserves (invariant root K U) m.
Proof. intros Hm s Hs. by apply (invariant_fixed s). Qed.

Lemma invariant_submit (s : State) (t : Task) :
  (∀ cur_dir, t = scan_dir_task cur_dir → cur_dir ∉ target_pathes s) →
  invariant root K U s →
  invariant root K U (set_thread_pool (λ pool, pool ++ [t]) s).
Proof.
  intros Ht (Hroot & HT & Hpool & Hpart & HK & HU).
  split_and!; try done. simpl.
  intros cur_dir [Hin|Hin%list_elem_of_singleton]%elem_of_app;
    [by apply Hpool|by apply Ht].
Qed.

Lemma invariant_drained (s : State) :
  invariant root K U s →
  invariant root K U (set_thread_pool (λ _, []) s).
Proof.
  intros (Hroot & HT & Hpool & Hpart & HK & HU).
  split_and!; try done. simpl. by intros t ?%elem_of_nil.
Qed.

(** What [handle_file] changes, the file system apart. *)
Lemma handle_file_fixed (file_path : Path) (s : State) :
  let extension := removeprefix_dot (suffix file_path) in
  let s' := (handle_file file_path s).2 in
  path s' = path s ∧ target_pathes s' = target_pathes s
  ∧ folders s' = folders s
  ∧ match get_target_folder (target_pathes s) extension with
    | Some _ => known_formats s' = known_formats s ∪ {[extension]}
                ∧ unknown_formats s' = unknown_formats s
    | None => unknown_formats s' = unknown_formats s ∪ {[extension]}
              ∧ known_formats s' = known_formats s
    end
  ∧ (thread_pool s' = thread_pool s
     ∨ ∃ target_path,
         thread_pool s'
         = thread_pool s ++ [move_file_task file_path target_path]).
Proof.
  unfold handle_file. monad_unfold.
  destruct (get_target_folder _ _) as [target_path|]; simpl.
  - destruct (Fs.mkdir_exist_ok _ _); simpl; [by auto 10|].
    destruct (decide _); simpl; [|by auto 10].
    split_and!; try done. right. by eexists.
  - destruct (Fs.mkdir_exist_ok _ _); simpl; [by auto 10|].
    destruct (decide _); simpl; [|by auto 10].
    split_and!; try done. right. by eexists.
Qed.

Lemma preserves_handle_file (file_path : Path) :
  preserves (invariant root K U) (handle_file file_path).
Proof.
  intros s (Hroot & HT & Hpool & [Hknown Hunknown] & HK & HU).
  destruct (handle_file_fixed file_path s)
    as (Hp & Ht & _ & Hsets & Htasks).
  unfold invariant, formats_partitioned.
  rewrite Hp, Ht.
  assert (∀ cur_dir,
            scan_dir_task cur_dir ∈ thread_pool (handle_file file_path s).2 →
            cur_dir ∉ target_pathes s) as Hpool'.
  { intros cur_dir. destruct Htasks as [->|[target_path ->]]; [apply Hpool|].
    intros [Hin|Hin%list_elem_of_singleton]%elem_of_app;
      [by apply Hpool|done]. }
  destruct (get_target_folder _ _) as [target_path|] eqn:Hclass;
    destruct Hsets as [-> ->]; split_and!; try done.
  - intros e [He| ->%elem_of_singleton]%elem_of_union; [by apply Hknown|].
    by rewrite Hclass.
  - transitivity (known_formats s); [done|apply union_subseteq_l].
  - intros e [He| ->%elem_of_singleton]%elem_of_union; [by apply Hunknown|].
    done.
  - transitivity (unknown_formats s); [done|apply union_subseteq_l].
Qed.

(** A destination folder among the entries is passed over. *)
Lemma scan_entry_skips (cur_path : Path) (s : State) :
  cur_path ∈ target_pathes s → scan_entry cur_path s = (Ret tt, s).
Proof.
  intros Hin. unfold scan_entry. monad_unfold. by rewrite decide_True.
Qed.

Lemma preserves_scan_entry (cur_path : Path) :
  preserves (invariant root K U) (scan_entry cur_path).
Proof.
  unfold scan_entry. apply preserves_get. intros s Hs.
  destruct (decide (cur_path ∈ target_pathes s)) as [Hin|Hout];
    [apply preserves_ret|].
  apply preserves_bind; [apply preserves_keeps, keeps_fs_read|].
  intros [|]; [by apply preserves_handle_file|].
  apply preserves_bind; [apply preserves_keeps, keeps_fs_read|].
  intros [|]; [|apply preserves_ret].
  intros s1 Hs1. unfold mbind, M_bind, modify, execute_in_thread. simpl.
  assert (target_pathes s1 = target_pathes s) as Heq
    by (destruct Hs as (_ & -> & _), Hs1 as (_ & -> & _); done).
  apply invariant_submit; [simpl; rewrite Heq; by intros ? [= <-]|].
  by apply (invariant_fixed s1).
Qed.

Lemma preserves_postprocessing :
  preserves (invariant root K U) postprocessing.
Proof.
  unfold postprocessing. apply preserves_get. intros s Hs.
  apply preserves_for_each. intros folder _.
  unfold postprocess_folder.
  apply preserves_bind; [apply preserves_keeps, keeps_fs_read|].
  intros present. destruct (negb _); [apply preserves_ret|].
  apply preserves_bind.
  - destruct (decide _); [|apply preserves_ret].
    apply preserves_bind; [apply preserves_keeps, keeps_fs_read|].
    intros entries. apply preserves_for_each. intros arch _.
    unfold dispatch_archive.
    apply preserves_bind; [apply preserves_keeps, keeps_fs_read|].
    intros [|]; [apply preserves_ret|].
    intros s3 Hs3. by apply invariant_submit.
  - intros _. apply preserves_bind; [apply preserves_keeps, keeps_fs_read|].
    intros _. apply preserves_ret.
Qed.

(** Every turn keeps the invariant. *)
Lemma step_invariant (s s' : State) :
  step s s' → invariant root K U s → invariant root K U s'.
Proof.
  intros Hstep Hs.
  destruct Hstep as [s cur_dir cur_path Hdir Hne Hparent
                    |s old_path new_path fuel Hin
                    |s path Hin|s|s fuel|s].
  - by apply preserves_scan_entry.
  - by apply preserves_keeps; [apply keeps_move_file|].
  - by apply preserves_keeps; [apply keeps_handle_archive|].
  - by apply invariant_drained.
  - by apply preserves_keeps; [apply keeps_handle_folders|].
  - by apply preserves_postprocessing.
Qed.

Lemma steps_invariant (s s' : State) :
  rtc step s s' → invariant root K U s → invariant root K U s'.
Proof. induction 1; eauto using step_invariant. Qed.
End invariant.

Lemma new_invariant `{Unicode} (w : World) (root : Path) :
  invariant root ∅ ∅ (new w root).
Proof.
  unfold invariant, formats_partitioned. simpl.
  split_and!; try done; intros x Hin;
    by (apply elem_of_nil in Hin || apply elem_of_empty in Hin).
Qed.

Lemma invariant_weaken `{Unicode} (root : Path) (K U : gset pystr)
    (s : State) :
  invariant root K U s →
  invariant root (known_formats s) (unknown_formats s) s.
Proof. intros (? & ? & ? & ? & _). by split_and!. Qed.

End FrameFacts.

(** ** Invariants of runs *)
Module ScheduleFacts.
Import PurePath CleanFolder Schedule FrameFacts Examples.

Lemma reachable_invariant `{Unicode} `{Shutil} `{SetOrder} (w : World) (root : Path)
    (s : State) :
  reachable w root s → invariant root ∅ ∅ s.
Proof. intros Hs. by apply (steps_invariant _ _ _ _ _ Hs), new_invariant. Qed.

(** C5. In any state of a run, [handle_file] adds the extension of its
    file to [known_formats] if the classifier gives a destination for
    it, to [unknown_formats] if not, and leaves the other set as it is;
    in every later state of the run the extension is still in that set
    and not in the other one, and the two sets are disjoint. *)
Theorem handle_file_records_extension `{Unicode} `{Shutil} `{SetOrder}
    (w : World) (root : Path) (s s'' : State) (file_path : Path) :
  reachable w root s →
  rtc step (handle_file file_path s).2 s'' →
  let extension := removeprefix_dot (suffix file_path) in
  let s' := (handle_file file_path s).2 in
  match get_target_folder (target_pathes s) extension with
  | Some _ =>
      known_formats s' = known_formats s ∪ {[extension]}
      ∧ unknown_formats s' = unknown_formats s
      ∧ extension ∈ known_formats s'' ∧ extension ∉ unknown_formats s''
  | None =>
      unknown_formats s' = unknown_formats s ∪ {[extension]}
      ∧ known_formats s' = known_formats s
      ∧ extension ∈ unknown_formats s'' ∧ extension ∉ known_formats s''
  end
  ∧ known_formats s'' ∩ unknown_formats s'' = ∅.
Proof.
  intros Hs Hlater extension s'.
  pose proof (reachable_invariant _ _ _ Hs) as Hinv.
  pose proof (preserves_handle_file root ∅ ∅ file_path s Hinv) as Hinv'.
  apply invariant_weaken in Hinv'. fold s' in Hinv'.
  pose proof (steps_invariant _ _ _ _ _ Hlater Hinv')
    as (_ & HT & _ & [Hknown Hunknown] & HK & HU).
  assert (target_pathes s'' = target_pathes s) as Htargets.
  { rewrite HT. by destruct Hinv as (_ & -> & _). }
  rewrite Htargets in Hknown, Hunknown.
  destruct (handle_file_fixed file_path s) as (_ & _ & _ & Hsets & _).
  fold extension s' in Hsets.
  split.
  - destruct (get_target_folder (target_pathes s) extension)
      as [target_path|] eqn:Hclass; destruct Hsets as [Hone Hother].
    + split_and!; [done|done| |].
      * apply HK. rewrite Hone. apply elem_of_union_r. by apply elem_of_singleton.
      * intros Hin%Hunknown. congruence.
    + split_and!; [done|done| |].
      * apply HU. rewrite Hone. apply elem_of_union_r. by apply elem_of_singleton.
      * intros [? Hin]%Hknown. congruence.
  - apply set_eq. intros e. rewrite elem_of_intersection, elem_of_empty.
    split; [|done]. intros [[? Hin]%Hknown Hout%Hunknown]. congruence.
Qed.

Lemma handle_file_records_extension_witness :
  let s := new one_file tresh in
  let file_path := segments ["tresh"; "a.txt"] in
  let s' := (handle_file (H:=py_unicode) file_path s).2 in
  reachable (H:=py_unicode) (H0:=py_shutil) one_file tresh s
  ∧ known_formats s' = known_formats s ∪ {[u "txt"]}
  ∧ unknown_formats s' = unknown_formats s
  ∧ u "txt" ∈ known_formats s' ∧ u "txt" ∉ unknown_formats s'.
Proof.
  split; [apply rtc_refl|].
  pose proof (handle_file_records_extension (H:=py_unicode) (H0:=py_shutil)
                one_file tresh (new one_file tresh)
                (handle_file (H:=py_unicode) (segments ["tresh"; "a.txt"])
                   (new one_file tresh)).2
                (segments ["tresh"; "a.txt"])
                (rtc_refl _ _) (rtc_refl _ _)) as [Hrec _].
  exact Hrec.
Defined.

(** C6. In any state of a run the destinations are the five paths
    [root/<category>]; an entry that is one of them is passed over by
    the loop of [scan_dir] (nothing is handled, recorded or submitted);
    and no directory that is scanned, the root or the directory of a
    submitted scan, is a destination, so the entries directly inside a
    destination are never met by the loop. *)
Theorem scan_skips_destinations `{Unicode} `{Shutil} `{SetOrder}
    (w : World) (root : Path) (s : State) :
  reachable w root s →
  (∀ p, p ∈ target_pathes s
        ↔ ∃ file_type, file_type ∈ map u ["images"; "video"; "documents";
                                           "audio"; "archives"]
                       ∧ p = root ++ [file_type])
  ∧ (∀ cur_path, cur_path ∈ target_pathes s →
                 scan_entry cur_path s = (Ret tt, s))
  ∧ (∀ cur_dir, cur_dir = path s ∨ scan_dir_task cur_dir ∈ thread_pool s →
                cur_dir ∉ target_pathes s)
  ∧ (∀ cur_dir cur_path,
       cur_dir = path s ∨ scan_dir_task cur_dir ∈ thread_pool s →
       parent cur_path = cur_dir → parent cur_path ∉ target_pathes s).
Proof.
  intros Hs.
  destruct (reachable_invariant _ _ _ Hs) as (Hroot & HT & Hpool & _).
  assert (∀ cur_dir, cur_dir = path s ∨ scan_dir_task cur_dir ∈ thread_pool s →
                     cur_dir ∉ target_pathes s) as Hscanned.
  { intros cur_dir [->|Htask]; [|by apply Hpool].
    rewrite HT, Hroot. apply root_not_destination. }
  split_and!.
  - intros p. rewrite HT. apply gen_formats_path_set_spec.
  - intros cur_path Hin. by apply scan_entry_skips.
  - done.
  - intros cur_dir cur_path Hdir ->. by apply Hscanned.
Qed.

Lemma scan_skips_destinations_witness :
  let s := new one_file tresh in
  reachable (H:=py_unicode) (H0:=py_shutil) one_file tresh s
  ∧ scan_entry (H:=py_unicode) (segments ["tresh"; "images"]) s = (Ret tt, s)
  ∧ tresh ∉ target_pathes s.
Proof.
  split; [apply rtc_refl|].
  pose proof (scan_skips_destinations (H:=py_unicode) (H0:=py_shutil)
                one_file tresh (new one_file tresh) (rtc_refl _ _))
    as (Htargets & Hskip & Hscanned & _).
  split.
  - apply Hskip, Htargets. exists (u "images"). split; [|done]. by left.
  - apply Hscanned. by left.
Defined.

End ScheduleFacts.

(** ** Postprocessing *)
Module ArchiveFacts.
Import PurePath CleanFolder Schedule UniqueNameFacts RunFacts FrameFacts.
Import Examples.

Lemma submit_nil (s : State) : set_thread_pool (λ pool, pool ++ []) s = s.
Proof. destruct s. unfold set_thread_pool. simpl. by rewrite app_nil_r. Qed.

Lemma submit_app (s : State) (l1 l2 : list Task) :
  set_thread_pool (λ pool, pool ++ l2)
    (set_thread_pool (λ pool, pool ++ l1) s)
  = set_thread_pool (λ pool, pool ++ (l1 ++ l2)) s.
Proof. unfold set_thread_pool. simpl. by rewrite app_assoc. Qed.

Lemma is_dir_reached (w : World) (p : Path) :
  Fs.stat_error w p = None →
  Fs.is_dir w p = inr (bool_decide (nodes w !! p = Some Dir)).
Proof. intros Hp. unfold Fs.is_dir, Fs.stat. by rewrite Hp. Qed.

Lemma iterdir_reached (w : World) (p : Path) :
  Fs.stat_error w p = None →
  Fs.iterdir w p = match nodes w !! p with
                   | None => inl FileNotFoundError
                   | Some (File _) => inl NotADirectoryError
                   | Some Dir => inr (Fs.children w p)
                   end.
Proof. intros Hp. unfold Fs.iterdir, Fs.stat. by rewrite Hp. Qed.

Lemma children_parent (w : World) (d k : Path) :
  k ∈ Fs.children w d → k ≠ [] ∧ parent k = d.
Proof.
  unfold Fs.children. intros [Hc _]%list_elem_of_filter.
  unfold Fs.is_child in Hc. by apply bool_decide_eq_true in Hc.
Qed.

Lemma dispatch_archive_eq (arch : Path) (s : State) :
  dispatch_archive arch s
  = match Fs.is_dir (world s) arch with
    | inl e => (Raise e, s)
    | inr true => (Ret tt, s)
    | inr false =>
        (Ret tt,
         set_thread_pool (λ pool, pool ++ [handle_archive_task arch]) s)
    end.
Proof.
  unfold dispatch_archive. monad_unfold.
  by destruct (Fs.is_dir _ _) as [e|[|]].
Qed.

(** The loop over the entries of [archives], when [is_dir] raises on
    none of them. *)
Lemma archive_loop (entries : list Path) (s : State) :
  (∀ arch, arch ∈ entries → Fs.stat_error (world s) arch = None) →
  for_each entries dispatch_archive s
  = (Ret tt,
     set_thread_pool (λ pool, pool ++
       (handle_archive_task
          <$> filter (λ arch, nodes (world s) !! arch ≠ Some Dir) entries)) s).
Proof.
  revert s. induction entries as [|arch entries IH]; intros s Hreach; simpl.
  - by rewrite submit_nil.
  - unfold mbind, M_bind. rewrite dispatch_archive_eq, filter_cons.
    rewrite is_dir_reached by (apply Hreach; by left).
    destruct (decide (nodes (world s) !! arch ≠ Some Dir)) as [Hfile|Hdir].
    + rewrite bool_decide_eq_false_2 by done.
      rewrite IH by (intros a Ha; apply Hreach; by right).
      simpl. by rewrite submit_app.
    + rewrite bool_decide_eq_true_2 by (by apply dec_stable).
      apply IH. intros a Ha. apply Hreach. by right.
Qed.

(** The loop over the entries of [archives], whatever its outcome:
    only tasks for entries that are not directories are submitted. *)
Lemma archive_loop_submits (entries : list Path) (s : State) :
  ∃ tasks,
    (for_each entries dispatch_archive s).2
    = set_thread_pool (λ pool, pool ++ tasks) s
    ∧ Forall (λ t, ∃ arch, t = handle_archive_task arch ∧ arch ∈ entries
                           ∧ nodes (world s) !! arch ≠ Some Dir) tasks.
Proof.
  revert s. induction entries as [|arch entries IH]; intros s; simpl.
  - exists []. by rewrite submit_nil.
  - unfold mbind, M_bind. rewrite dispatch_archive_eq.
    destruct (Fs.is_dir (world s) arch) as [e|[|]] eqn:Hdir.
    + exists []. by rewrite submit_nil.
    + destruct (IH s) as (tasks & Hs & Htasks). exists tasks.
      split; [done|]. eapply Forall_impl; [exact Htasks|]. simpl.
      intros t (a & -> & Ha & Hnd). exists a. split_and!; try done.
      by right.
    + destruct (IH (set_thread_pool
                      (λ pool, pool ++ [handle_archive_task arch]) s))
        as (tasks & Hs & Htasks).
      exists (handle_archive_task arch :: tasks). rewrite Hs.
      split; [by rewrite submit_app|]. constructor.
      * exists arch. split_and!; [done|by left|].
        unfold Fs.is_dir, Fs.stat in Hdir.
        destruct (Fs.stat_error (world s) arch); [done|].
        injection Hdir as Hdir. by apply bool_decide_eq_false in Hdir.
      * eapply Forall_impl; [exact Htasks|]. simpl.
        intros t (a & -> & Ha & Hnd). exists a. split_and!; try done.
        by right.
Qed.

(** One destination, whatever the outcome: the file system and the
    other fields are as before. *)
Lemma postprocess_folder_submits (folder : Path) (s : State) :
  ∃ tasks,
    (postprocess_folder folder s).2
    = set_thread_pool (λ pool, pool ++ tasks) s
    ∧ Forall (λ t, ∃ arch, t = handle_archive_task arch
                           ∧ parent arch = folder
                           ∧ name folder = u "archives"
                           ∧ nodes (world s) !! arch ≠ Some Dir) tasks.
Proof.
  unfold postprocess_folder. monad_unfold.
  destruct (Fs.exists_ (world s) folder) as [e|[|]]; simpl;
    [exists []; by rewrite submit_nil| |exists []; by rewrite submit_nil].
  destruct (decide (name folder = u "archives")) as [Hname|Hname].
  - destruct (Fs.iterdir (world s) folder) as [e|entries] eqn:Hiter;
      [exists []; by rewrite submit_nil|].
    apply iterdir_dir in Hiter as (_ & _ & ->).
    destruct (archive_loop_submits (Fs.children (world s) folder) s)
      as (tasks & Hs & Htasks).
    destruct (for_each _ dispatch_archive s) as [r s1]. simpl in Hs.
    subst s1. exists tasks. split.
    + destruct r as [[]|e|]; [|done|done]. simpl.
      by destruct (Fs.iterdir (world s) folder).
    + eapply Forall_impl; [exact Htasks|]. simpl.
      intros t (a & -> & [_ Ha]%children_parent & Hnd). by exists a.
  - exists []. rewrite submit_nil.
    by destruct (Fs.iterdir (world s) folder).
Qed.

(** The loop over the destinations, whatever the order and the
    outcome. *)
Lemma postprocess_folders_submit (l : list Path) (s : State) :
  ∃ tasks,
    (for_each l postprocess_folder s).2
    = set_thread_pool (λ pool, pool ++ tasks) s
    ∧ Forall (λ t, ∃ arch, t = handle_archive_task arch
                           ∧ parent arch ∈ l
                           ∧ name (parent arch) = u "archives"
                           ∧ nodes (world s) !! arch ≠ Some Dir) tasks.
Proof.
  revert s. induction l as [|folder l IH]; intros s; simpl.
  - exists []. by rewrite submit_nil.
  - unfold mbind, M_bind.
    destruct (postprocess_folder_submits folder s) as (tasks & Hs & Htasks).
    assert (Forall (λ t, ∃ arch, t = handle_archive_task arch
                                 ∧ parent arch ∈ folder :: l
                                 ∧ name (parent arch) = u "archives"
                                 ∧ nodes (world s) !! arch ≠ Some Dir) tasks)
      as Htasks'.
    { eapply Forall_impl; [exact Htasks|]. simpl.
      intros t (a & -> & <- & Hname & Hnd). exists a.
      split_and!; try done. by left. }
    destruct (postprocess_folder folder s) as [[[]|e|] s1]; simpl in Hs;
      subst s1; [|by exists tasks|by exists tasks].
    destruct (IH (set_thread_pool (λ pool, pool ++ tasks) s))
      as (tasks' & Hs' & Htasks'').
    exists (tasks ++ tasks'). rewrite Hs', submit_app. split; [done|].
    apply Forall_app. split; [done|].
    eapply Forall_impl; [exact Htasks''|]. simpl.
    intros t (a & -> & Hin & Hname & Hnd). exists a.
    split_and!; try done. by right.
Qed.

(** One destination that [exists] reaches, [is_dir] reaching the
    entries of [archives]: a regular file stops [postprocessing], for
    a directory the tasks are submitted, and nothing is done for a
    destination that does not exist. *)
Lemma postprocess_folder_reached (folder : Path) (s : State) :
  Fs.stat_error (world s) folder = None →
  (name folder = u "archives" →
   ∀ arch, arch ∈ Fs.children (world s) folder →
           Fs.stat_error (world s) arch = None) →
  postprocess_folder folder s
  = match nodes (world s) !! folder with
    | Some (File _) => (Raise NotADirectoryError, s)
    | Some Dir =>
        (Ret tt,
         set_thread_pool (λ pool, pool ++ archive_tasks (world s) folder) s)
    | None => (Ret tt, s)
    end.
Proof.
  intros Hreach Harch. unfold postprocess_folder, archive_tasks.
  monad_unfold. rewrite (exists_reached _ _ Hreach).
  pose proof (iterdir_reached _ _ Hreach) as Hiter.
  destruct (nodes (world s) !! folder) as [[c|]|] eqn:Hnode; simpl.
  - destruct (decide (name folder = u "archives")); by rewrite Hiter.
  - destruct (decide (name folder = u "archives")) as [Hname|Hname].
    + rewrite Hiter. rewrite archive_loop by (by apply Harch). simpl.
      by rewrite Hiter.
    + rewrite Hiter. by rewrite submit_nil.
  - done.
Qed.

(** The tasks of a destination that is a directory. *)
Lemma postprocess_folders_reached (l : list Path) (s : State) :
  (∀ folder, folder ∈ l → Fs.stat_error (world s) folder = None) →
  (∀ folder arch, folder ∈ l → arch ∈ Fs.children (world s) folder →
                  name folder = u "archives" →
                  Fs.stat_error (world s) arch = None) →
  let tasks_of := λ folder,
    match nodes (world s) !! folder with
    | Some Dir => archive_tasks (world s) folder
    | _ => []
    end in
  ((∀ folder c, folder ∈ l → nodes (world s) !! folder ≠ Some (File c)) →
   for_each l postprocess_folder s
   = (Ret tt,
      set_thread_pool (λ pool, pool ++ concat (map tasks_of l)) s))
  ∧ (∀ l1 folder c l2,
       l = l1 ++ folder :: l2 →
       (∀ f c', f ∈ l1 → nodes (world s) !! f ≠ Some (File c')) →
       nodes (world s) !! folder = Some (File c) →
       for_each l postprocess_folder s
       = (Raise NotADirectoryError,
          set_thread_pool (λ pool, pool ++ concat (map tasks_of l1)) s)).
Proof.
  intros Hreach Harch tasks_of.
  assert (Hstep : ∀ (l' : list Path) folder s1,
            world s1 = world s → folder ∈ l →
            (∀ c, nodes (world s) !! folder ≠ Some (File c)) →
            (postprocess_folder folder ;; for_each l' postprocess_folder) s1
            = for_each l' postprocess_folder
                (set_thread_pool (λ pool, pool ++ tasks_of folder) s1)).
  { intros l' folder s1 Hw Hin Hnf. unfold mbind, M_bind.
    rewrite postprocess_folder_reached;
      [|rewrite Hw; by apply Hreach
       |rewrite Hw; intros Hn arch Ha; by apply (Harch folder)].
    unfold tasks_of. rewrite Hw.
    destruct (nodes (world s) !! folder) as [[c|]|] eqn:Hnode;
      [by destruct (Hnf c)|done|by rewrite submit_nil]. }
  assert (Hloop : ∀ (l' : list Path) s1 (tasks : list Task),
            world s1 = world s → (∀ f, f ∈ l' → f ∈ l) →
            (∀ f c, f ∈ l' → nodes (world s) !! f ≠ Some (File c)) →
            s1 = set_thread_pool (λ pool, pool ++ tasks) s →
            for_each l' postprocess_folder s1
            = (Ret tt,
               set_thread_pool
                 (λ pool, pool ++ (tasks ++ concat (map tasks_of l'))) s)).
  { induction l' as [|folder l' IH]; intros s1 tasks Hw Hsub Hnf ->.
    - simpl. by rewrite app_nil_r.
    - simpl for_each. rewrite Hstep;
        [|done|apply Hsub; by left|intros c; apply Hnf; by left].
      rewrite submit_app. simpl.
      rewrite (IH _ (tasks ++ tasks_of folder)); try done.
      + by rewrite <- app_assoc.
      + intros f Hf. apply Hsub. by right.
      + intros f c Hf. apply Hnf. by right. }
  split.
  - intros Hnf. rewrite (Hloop l s []); try done. by rewrite submit_nil.
  - intros l1 folder c l2 -> Hnf Hfile.
    assert (Hpre : ∀ (l' : list Path) s1 (tasks : list Task),
              world s1 = world s → (∀ f, f ∈ l' → f ∈ l1) →
              s1 = set_thread_pool (λ pool, pool ++ tasks) s →
              for_each (l' ++ folder :: l2) postprocess_folder s1
              = (Raise NotADirectoryError,
                 set_thread_pool
                   (λ pool, pool ++ (tasks ++ concat (map tasks_of l'))) s)).
    { induction l' as [|f l' IH]; intros s1 tasks Hw Hsub ->.
      - simpl. unfold mbind, M_bind.
        rewrite postprocess_folder_reached;
          [|apply Hreach, elem_of_app; right; by left
           |intros Hn arch Ha; apply (Harch folder); try done;
            apply elem_of_app; right; by left].
        simpl. rewrite Hfile. by rewrite app_nil_r.
      - simpl for_each. rewrite Hstep; [|done| |].
        + rewrite submit_app. simpl.
          rewrite (IH _ (tasks ++ tasks_of f)); try done.
          * by rewrite <- app_assoc.
          * intros f' Hf'. apply Hsub. by right.
        + apply elem_of_app. left. apply Hsub. by left.
        + intros c'. apply Hnf, Hsub. by left. }
    rewrite (Hpre l1 s []); try done. by rewrite submit_nil.
Qed.

(** The first destination in a list that is a regular file. *)
Lemma first_file (w : World) (l : list Path) :
  (∃ l1 f c l2, l = l1 ++ f :: l2
                ∧ (∀ f' c', f' ∈ l1 → nodes w !! f' ≠ Some (File c'))
                ∧ nodes w !! f = Some (File c))
  ∨ (∀ f c, f ∈ l → nodes w !! f ≠ Some (File c)).
Proof.
  induction l as [|x l [(l1 & f & c & l2 & -> & Hnf & Hf)|Hnone]].
  - right. by intros f c ?%elem_of_nil.
  - destruct (nodes w !! x) as [[c'|]|] eqn:Hx.
    + left. exists [], x, c', (l1 ++ f :: l2).
      split_and!; [done| |done]. by intros f' c'' ?%elem_of_nil.
    + left. exists (x :: l1), f, c, l2. split_and!; [done| |done].
      intros f' c' [->|Hin]%elem_of_cons; [by rewrite Hx|by apply Hnf].
    + left. exists (x :: l1), f, c, l2. split_and!; [done| |done].
      intros f' c' [->|Hin]%elem_of_cons; [by rewrite Hx|by apply Hnf].
  - destruct (nodes w !! x) as [[c'|]|] eqn:Hx.
    + left. exists [], x, c', l.
      split_and!; [done| |done]. by intros f' c'' ?%elem_of_nil.
    + right. intros f c [->|Hin]%elem_of_cons; [by rewrite Hx|by apply Hnone].
    + right. intros f c [->|Hin]%elem_of_cons; [by rewrite Hx|by apply Hnone].
Qed.

(** Only one destination is named [archives]. *)
Lemma concat_none {A B} (f : A → list B) (l : list A) :
  (∀ x, x ∈ l → f x = []) → concat (map f l) = [].
Proof.
  induction l as [|x l IH]; intros Hnil; simpl; [done|].
  rewrite (Hnil x) by (by left). simpl. apply IH. intros y Hy.
  apply Hnil. by right.
Qed.

Lemma concat_single {A B} (f : A → list B) (a : A) (l : list A) :
  NoDup l → a ∈ l → (∀ x, x ∈ l → x ≠ a → f x = []) →
  concat (map f l) = f a.
Proof.
  induction 1 as [|x l Hx Hnd IH]; intros Hin Hnil;
    [by apply elem_of_nil in Hin|].
  simpl. apply elem_of_cons in Hin as [->|Hin].
  - rewrite concat_none, app_nil_r; [done|]. intros y Hy.
    apply Hnil; [by right|]. by intros ->.
  - rewrite (Hnil x); [|by left|by intros ->]. simpl.
    apply IH; [done|]. intros y Hy. apply Hnil. by right.
Qed.

Lemma handle_archive_eq `{Shutil} (path : Path) (s : State) :
  handle_archive path s
  = match unpack_archive (world s) path
            (joinpath (parent path) (stem path)) with
    | (None, w) =>
        match Fs.unlink w path with
        | inr w' => (Ret tt, set_world (λ _, w') s)
        | inl e => (Raise e, set_world (λ _, w) s)
        end
    | (Some e, w) => (Raise e, set_world (λ _, w) s)
    end.
Proof.
  unfold handle_archive. monad_unfold.
  destruct (unpack_archive _ _ _) as [[e|] w]; [done|]. simpl.
  by destruct (Fs.unlink w path).
Qed.

(** [shutdown] goes on with the next future when a task has raised. *)
Lemma shutdown_loop_step `{Unicode} `{Shutil} (fuel i : nat) (t : Task)
    (s : State) :
  thread_pool s !! i = Some t →
  shutdown_loop (S fuel) i s
  = match run_task fuel t s with
    | (OutOfFuel, s1) => (OutOfFuel, s1)
    | (_, s1) => shutdown_loop fuel (S i) s1
    end.
Proof.
  intros Ht. simpl. monad_unfold. rewrite Ht.
  by destruct (run_task fuel t s) as [[[]|e|] s1].
Qed.

(** The order of a set holds each element once. *)
Lemma iter_set_spec `{SetOrder} (X : gset Path) :
  NoDup (iter_set X) ∧ ∀ p, p ∈ iter_set X ↔ p ∈ X.
Proof.
  split.
  - rewrite iter_set_perm. apply NoDup_elements.
  - intros p. rewrite iter_set_perm. apply elem_of_elements.
Qed.

(** Of the destinations of a root, only [archives] has tasks. *)
Lemma archives_only (root : Path) (w : World) (l : list Path) :
  NoDup l → (∀ p, p ∈ l → p ∈ gen_formats_path_set root) →
  concat (map (λ folder, match nodes w !! folder with
                         | Some Dir => archive_tasks w folder
                         | _ => []
                         end) l)
  = if decide (root ++ [u "archives"] ∈ l)
    then match nodes w !! (root ++ [u "archives"]) with
         | Some Dir => archive_tasks w (root ++ [u "archives"])
         | _ => []
         end
    else [].
Proof.
  intros Hnd Hsub.
  assert (Hother : ∀ x, x ∈ l → x ≠ root ++ [u "archives"] →
                        match nodes w !! x with
                        | Some Dir => archive_tasks w x
                        | _ => []
                        end = []).
  { intros x (file_type & _ & ->)%Hsub%gen_formats_path_set_spec Hne.
    destruct (nodes w !! (root ++ [file_type])) as [[c|]|]; try done.
    unfold archive_tasks. rewrite PathFacts.name_snoc.
    rewrite decide_False; [done|]. by intros ->. }
  destruct (decide (root ++ [u "archives"] ∈ l)) as [Hin|Hout].
  - by apply (concat_single
                (λ folder, match nodes w !! folder with
                           | Some Dir => archive_tasks w folder
                           | _ => []
                           end) (root ++ [u "archives"])).
  - apply concat_none. intros x Hx. apply Hother; [done|]. by intros ->.
Qed.

Lemma resolve_dotdot (root : Path) (n : pystr) :
  n ≠ u ".." → Fs.resolve (root ++ [n; u ".."]) = Fs.resolve root.
Proof.
  intros Hn. unfold Fs.resolve. rewrite foldl_app. simpl.
  rewrite (decide_False (P := n = u ".." ∧ _)) by (by intros [? _]).
  rewrite decide_True; [apply PathFacts.parent_snoc|].
  split_and!; [done|by destruct (foldl _ _ _)|].
  by rewrite PathFacts.name_snoc.
Qed.


(** The conditions of C9 in [archives_folder]. *)
Lemma archives_folder_reached (folder : Path) :
  folder ∈ gen_formats_path_set tresh →
  Fs.stat_error archives_folder folder = None.
Proof.
  intros (file_type & Hin & ->)%gen_formats_path_set_spec.
  repeat (apply elem_of_cons in Hin as [->|Hin]; [vm_refl|]).
  by apply elem_of_nil in Hin.
Qed.

Lemma archives_folder_entries (arch : Path) :
  arch ∈ Fs.children archives_folder (tresh ++ [u "archives"]) →
  Fs.stat_error archives_folder arch = None.
Proof.
  assert (Fs.children archives_folder (tresh ++ [u "archives"])
          = [segments ["tresh"; "archives"; "data.gz"];
             segments ["tresh"; "archives"; "a.zip"];
             segments ["tresh"; "archives"; "old"]]) as -> by vm_refl.
  intros Harch.
  repeat (apply elem_of_cons in Harch as [->|Harch]; [vm_refl|]).
  by apply elem_of_nil in Harch.
Qed.

Lemma archives_folder_no_file (folder : Path) (c : N) :
  folder ∈ gen_formats_path_set tresh →
  nodes archives_folder !! folder ≠ Some (File c).
Proof.
  intros (file_type & Hin & ->)%gen_formats_path_set_spec.
  repeat (apply elem_of_cons in Hin as [->|Hin]; [by vm_compute|]).
  by apply elem_of_nil in Hin.
Qed.



End ArchiveFacts.

(** ** main: failures and the exit status *)
Module MainFacts.
Import PurePath CleanFolder Schedule FrameFacts ArchiveFacts Examples.

Section drain.
Context `{Unicode} `{Shutil} `{SetOrder}.

(** The first future whose task raises makes [wait_for_result] raise. *)
Lemma wait_loop_raise (fuel i : nat) (result : list unit) (t : Task)
    (s s1 : State) (e : Exn) :
  thread_pool s !! i = Some t →
  run_task fuel t s = (Raise e, s1) →
  wait_loop (S fuel) i result s = (Raise e, s1).
Proof. intros Ht Hrun. simpl. monad_unfold. by rewrite Ht, Hrun. Qed.

(** What [wait_for_result] raises was raised by a submitted task. *)
Lemma wait_loop_raised (fuel : nat) :
  ∀ (i : nat) (result : list unit) (s s' : State) (e : Exn),
  wait_loop fuel i result s = (Raise e, s') →
  ∃ fuel' t s0, t ∈ thread_pool s0 ∧ run_task fuel' t s0 = (Raise e, s').
Proof.
  induction fuel as [|fuel IH]; intros i result s s' e; simpl; monad_unfold.
  - by destruct (thread_pool s !! i).
  - destruct (thread_pool s !! i) as [t|] eqn:Ht; [|done].
    destruct (run_task fuel t s) as [[[]|e'|] s1] eqn:Hrun; [| |done].
    + apply IH.
    + intros [= -> ->]. exists fuel, t, s. split; [|done].
      by eapply list_elem_of_lookup_2.
Qed.

(** When it returns, the list of futures is empty. *)
Lemma wait_loop_returns (fuel : nat) :
  ∀ (i : nat) (result result' : list unit) (s s' : State),
  wait_loop fuel i result s = (Ret result', s') → thread_pool s' = [].
Proof.
  induction fuel as [|fuel IH]; intros i result result' s s'; simpl;
    monad_unfold.
  - destruct (thread_pool s !! i); [done|]. by intros [= _ <-].
  - destruct (thread_pool s !! i) as [t|] eqn:Ht; [|by intros [= _ <-]].
    destruct (run_task fuel t s) as [[[]|e'|] s1] eqn:Hrun; [|done|done].
    apply IH.
Qed.

(** [shutdown] drops what the pending tasks raise. *)
Lemma shutdown_loop_no_raise (fuel : nat) :
  ∀ (i : nat) (s s' : State) (e : Exn),
  shutdown_loop fuel i s ≠ (Raise e, s').
Proof.
  induction fuel as [|fuel IH]; intros i s s' e; simpl; monad_unfold.
  - by destruct (thread_pool s !! i).
  - destruct (thread_pool s !! i) as [t|]; [|done].
    destruct (run_task fuel t s) as [[[]|e'|] s1]; [apply IH|apply IH|done].
Qed.

(** Tasks that unpack archives need one unit of fuel each. *)
Lemma shutdown_loop_archives (fuel : nat) :
  ∀ (i : nat) (s : State),
  (∀ t, t ∈ thread_pool s → ∃ path, t = handle_archive_task path) →
  (length (thread_pool s) - i ≤ fuel)%nat →
  ∃ s', shutdown_loop fuel i s = (Ret tt, s').
Proof.
  induction fuel as [|fuel IH]; intros i s Hpool Hfuel; simpl; monad_unfold.
  - rewrite lookup_ge_None_2 by lia. by eexists.
  - destruct (thread_pool s !! i) as [t|] eqn:Ht; [|by eexists].
    destruct (Hpool t) as [path ->]; [by eapply list_elem_of_lookup_2|].
    simpl. apply lookup_lt_Some in Ht.
    pose proof (keeps_handle_archive path s) as Hkeeps.
    assert (∃ r, (handle_archive path s).1 = r ∧ r ≠ OutOfFuel)
      as (r & Hr & Hne).
    { rewrite handle_archive_eq.
      destruct (unpack_archive _ _ _) as [[e|] w]; [by eexists|].
      destruct (Fs.unlink w path); by eexists. }
    destruct (handle_archive path s) as [r' s1]. simpl in Hr. subst r'.
    injection Hkeeps as _ _ _ _ Hp.
    destruct r as [[]|e'|]; [| |done];
      (apply IH; rewrite Hp; [done|lia]).
Qed.

End drain.

(** The unpacker of the concrete runs refuses a name with no registered
    extension, and leaves the file system as it is. *)
Lemma handle_archive_unknown_format (path : Path) (s : State) :
  existsb (endswith (name path)) unpack_extensions = false →
  handle_archive (H0:=py_shutil) path s = (Raise ReadError, s).
Proof.
  intros Hext. rewrite handle_archive_eq.
  change (@unpack_archive py_shutil) with py_unpack_archive.
  unfold py_unpack_archive. rewrite Hext. by rewrite set_world_id.
Qed.



End MainFacts.


(** * Further properties of the code *)

(** ** Normalize: the table and the normal forms *)
Module NormalizeMore.
Import Normalize NormalizeFacts PurePath PathFacts.

(** What one character becomes. *)
Lemma normalize_char_alphabet `{Unicode} (char c : N) :
  (∀ c, c < 128 → isalnum c = is_ascii_alnum c) →
  c ∈ normalize_char char → is_word_char c = true ∨ (c = char ∧ 128 ≤ c).
Proof.
  intros Hascii. unfold normalize_char.
  destruct (isalnum char) eqn:Halnum.
  - destruct (TRANS_DICT !! char) as [l|] eqn:Hl; simpl.
    + intros Hc. left.
      pose proof (TRANS_DICT_values _ _ Hl) as Hall. simpl in Hall.
      rewrite forallb_forall in Hall. apply Hall.
      by apply list_elem_of_In.
    + intros ->%list_elem_of_singleton.
      destruct (N.lt_ge_cases char 128) as [Hlt|Hge]; [|by right].
      left. unfold is_word_char. rewrite <- (Hascii char Hlt), Halnum. done.
  - intros ->%list_elem_of_singleton. by left.
Qed.

Lemma normalize_char_word `{Unicode} (c : N) :
  (∀ c, c < 128 → isalnum c = is_ascii_alnum c) →
  is_word_char c = true → normalize_char c = [c].
Proof.
  intros Hascii Hword. unfold normalize_char.
  assert (c < 128) as Hlt.
  { unfold is_word_char, is_ascii_alnum, is_digit, is_ascii_upper,
      is_ascii_lower in Hword.
    repeat rewrite orb_true_iff in Hword.
    repeat rewrite andb_true_iff in Hword.
    rewrite N.eqb_eq in Hword. repeat rewrite N.leb_le in Hword. lia. }
  rewrite (Hascii c Hlt).
  destruct (is_ascii_alnum c) eqn:Halnum.
  - destruct (TRANS_DICT !! c) as [l|] eqn:Hl; [|done].
    pose proof (TRANS_DICT_keys _ _ Hl) as Hkey. simpl in Hkey.
    apply N.leb_le in Hkey. lia.
  - unfold is_word_char in Hword. rewrite Halnum in Hword. simpl in Hword.
    apply N.eqb_eq in Hword. by subst c.
Qed.

(** X1. [gen_trans_dict] gives every letter of [CYRILLIC_SYMBOLS] its
    transliteration and the capital of the letter the upper-cased
    transliteration; the 37 letters and their 37 capitals are 74
    different keys, so no entry of the table replaces another. *)
Theorem gen_trans_dict_pairs :
  Forall (λ cl, TRANS_DICT !! cl.1 = Some cl.2
                ∧ TRANS_DICT !! cyrillic_upper cl.1 = Some (ascii_upper cl.2))
         (zip CYRILLIC_SYMBOLS TRANSLATION)
  ∧ length CYRILLIC_SYMBOLS = length TRANSLATION
  ∧ size TRANS_DICT = (2 * length CYRILLIC_SYMBOLS)%nat
  ∧ (∀ c, is_Some (TRANS_DICT !! c) →
          c ∈ CYRILLIC_SYMBOLS ∨ c ∈ map cyrillic_upper CYRILLIC_SYMBOLS).
Proof.
  split_and!.
  - apply (bool_decide_unpack _). vm_true.
  - reflexivity.
  - vm_refl.
  - intros c [l Hl].
    assert (map_Forall (λ c (_ : pystr),
              bool_decide (c ∈ CYRILLIC_SYMBOLS
                           ∨ c ∈ map cyrillic_upper CYRILLIC_SYMBOLS) = true)
              TRANS_DICT) as Hkeys.
    { apply (bool_decide_unpack _). vm_true. }
    specialize (Hkeys _ _ Hl). simpl in Hkeys.
    by apply bool_decide_eq_true in Hkeys.
Qed.

(** On ASCII the database for concrete runs is the ASCII classification. *)
Lemma py_isalnum_ascii_eq (c : N) :
  c < 128 → py_isalnum c = is_ascii_alnum c.
Proof.
  intros Hc. destruct (py_isalnum c) eqn:Halnum.
  - symmetry. by apply NormalizeFacts.py_isalnum_ascii.
  - unfold py_isalnum in Halnum. by destruct (is_ascii_alnum c).
Qed.

(** X2. [normalize] is a homomorphism for concatenation, leaves a string
    of [[A-Za-z0-9_]] as it is, and is idempotent on strings made of
    ASCII characters and letters of the table. *)
Theorem normalize_idempotent `{Unicode} (a b : pystr) :
  (∀ c, c < 128 → isalnum c = is_ascii_alnum c) →
  normalize (a ++ b) = normalize a ++ normalize b
  ∧ (Forall (λ c, is_word_char c = true) a → normalize a = a)
  ∧ (Forall (λ c, c < 128 ∨ is_Some (TRANS_DICT !! c)) a →
     normalize (normalize a) = normalize a).
Proof.
  intros Hascii.
  assert (Hfix : ∀ s : pystr, Forall (λ c, is_word_char c = true) s →
                              normalize s = s).
  { intros s Hs. rewrite normalize_concat.
    induction Hs as [|c s Hc Hs IH]; simpl; [done|].
    by rewrite IH, normalize_char_word. }
  split_and!; [apply normalize_app|apply Hfix|].
  intros Ha. apply Hfix. apply Forall_forall. intros c.
  rewrite normalize_concat.
  intros (char & Hin & Hc)%elem_of_concat_map.
  destruct (normalize_char_alphabet _ _ Hascii Hc) as [?|[-> Hge]]; [done|].
  rewrite Forall_forall in Ha.
  destruct (Ha _ Hin) as [Hlt|[l Hl]]; [lia|].
  unfold normalize_char in Hc.
  destruct (isalnum char); [|apply list_elem_of_singleton in Hc; by subst].
  rewrite Hl in Hc. simpl in Hc.
  pose proof (TRANS_DICT_values _ _ Hl) as Hall. simpl in Hall.
  rewrite forallb_forall in Hall. apply Hall. by apply list_elem_of_In.
Qed.

Lemma normalize_idempotent_witness :
  (∀ c, c < 128 → py_isalnum c = is_ascii_alnum c)
  ∧ normalize (H:=py_unicode) (u "a_b1") = u "a_b1"
  ∧ normalize (H:=py_unicode) (normalize (H:=py_unicode) [1097; 32; 46])
    = normalize (H:=py_unicode) [1097; 32; 46].
Proof.
  pose proof py_isalnum_ascii_eq as Hascii.
  split; [done|].
  pose proof (normalize_idempotent (H:=py_unicode) (u "a_b1") [] Hascii)
    as (_ & Hfix & _).
  pose proof (normalize_idempotent (H:=py_unicode) [1097; 32; 46] [] Hascii)
    as (_ & _ & Hidem).
  split.
  - apply Hfix. apply Forall_forall. intros c Hin.
    apply list_elem_of_In in Hin. simpl in Hin.
    destruct Hin as [<-|[<-|[<-|[<-|[]]]]]; reflexivity.
  - apply Hidem.
    apply Forall_cons_2; [right; apply (bool_decide_unpack _); vm_true|].
    apply Forall_cons_2; [left; lia|].
    apply Forall_cons_2; [left; lia|]. constructor.
Defined.

(** The normal form holds no dot. *)
Lemma normalize_no_dot `{Unicode} (name : pystr) :
  (∀ c, c < 128 → isalnum c = is_ascii_alnum c) →
  rfind 46 (normalize name) = None.
Proof.
  intros Hascii. apply rfind_None. rewrite normalize_concat.
  intros (char & _ & Hc)%elem_of_concat_map.
  destruct (normalize_char_alphabet _ _ Hascii Hc) as [Hw|[_ Hge]]; [|lia].
  by vm_compute in Hw.
Qed.

(** X3. The new name [handle_file] builds, [normalize(stem) + suffix],
    reads back as that stem and that suffix whenever the normal form of
    the stem is not empty: the renamed file keeps its extension. When
    the normal form is empty and there is a suffix, the new name is the
    suffix alone and pathlib reads it as a name without suffix. *)
Theorem new_name_keeps_suffix `{Unicode} (name : pystr) :
  (∀ c, c < 128 → isalnum c = is_ascii_alnum c) →
  let new_name := normalize (name_stem name) ++ name_suffix name in
  (normalize (name_stem name) ≠ [] →
   name_suffix new_name = name_suffix name
   ∧ name_stem new_name = normalize (name_stem name))
  ∧ (normalize (name_stem name) = [] →
     name_suffix new_name = [] ∧ name_stem new_name = name_suffix name).
Proof.
  intros Hascii new_name. unfold new_name.
  pose proof (normalize_no_dot (name_stem name) Hascii) as Hnodot.
  set (n' := normalize (name_stem name)) in *.
  assert (Hcases : name_suffix name = []
                   ∨ ∃ e, name_suffix name = 46 :: e ∧ e ≠ []
                          ∧ rfind 46 e = None).
  { unfold name_suffix. destruct (rfind 46 name) as [i|] eqn:Hi; [|by left].
    destruct (has_suffix_at name i) eqn:Hs; [|by left]. right.
    destruct (rfind_Some _ _ _ Hi) as (e & He & Hne & Hlt).
    exists e. split_and!; [done| |by apply rfind_None].
    intros ->. unfold has_suffix_at in Hs.
    apply andb_true_iff in Hs as [_ Hs%Nat.ltb_lt].
    apply (f_equal length) in He. rewrite length_drop in He. simpl in He. lia. }
  split.
  - intros Hne. destruct Hcases as [->|(e & -> & He & Hnone)].
    + rewrite app_nil_r. unfold name_suffix, name_stem. by rewrite Hnodot.
    + unfold name_suffix, name_stem. rewrite rfind_app. simpl.
      rewrite Hnone. simpl. rewrite Nat.add_0_r.
      unfold has_suffix_at.
      assert ((0 <? length n')%nat = true) as ->.
      { apply Nat.ltb_lt. destruct n'; [done|simpl; lia]. }
      assert (length (n' ++ 46 :: e) = (length n' + S (length e))%nat)
        as -> by (rewrite length_app; done).
      assert ((length n' <? length n' + S (length e) - 1)%nat = true) as ->.
      { apply Nat.ltb_lt. destruct e; [done|simpl; lia]. }
      simpl. by rewrite drop_app_length, take_app_length.
  - intros ->. simpl. destruct Hcases as [->|(e & -> & He & Hnone)]; [done|].
    unfold name_suffix, name_stem. simpl. by rewrite Hnone.
Qed.

Lemma new_name_keeps_suffix_witness :
  (∀ c, c < 128 → py_isalnum c = is_ascii_alnum c)
  ∧ name_suffix (normalize (H:=py_unicode) (name_stem (u "a b.txt"))
                 ++ name_suffix (u "a b.txt"))
    = name_suffix (u "a b.txt").
Proof.
  pose proof py_isalnum_ascii_eq as Hascii.
  split; [done|].
  apply (new_name_keeps_suffix (H:=py_unicode) (u "a b.txt") Hascii).
  by vm_compute.
Defined.

End NormalizeMore.

(** ** The classifier *)
Module ClassifierFacts.
Import PurePath CleanFolder PathFacts FrameFacts Examples.

Lemma category_names :
  FORMATS_DICT.*1 = map u ["images"; "video"; "documents"; "audio"; "archives"].
Proof. reflexivity. Qed.

(** X4. [gen_formats_path_set] gives five different destinations, each
    directly under the root and named by a category; the root itself is
    none of them. *)
Theorem gen_formats_path_set_five (root : Path) :
  size (gen_formats_path_set root) = 5%nat
  ∧ (root ∉ gen_formats_path_set root)
  ∧ ∀ p, p ∈ gen_formats_path_set root →
         parent p = root ∧ (name p ∈ FORMATS_DICT.*1) ∧ p = root ++ [name p].
Proof.
  split_and!.
  - assert (gen_formats_path_set root
            = list_to_set ((λ file_type, root ++ [file_type])
                             <$> FORMATS_DICT.*1)) as ->.
    { apply set_eq. intros p. rewrite gen_formats_path_set_spec.
      rewrite elem_of_list_to_set, list_elem_of_fmap.
      split; intros (ft & ? & ?); by exists ft. }
    rewrite size_list_to_set; [done|].
    apply NoDup_fmap_2; [intros a b Hab; by simplify_list_eq|].
    rewrite category_names. apply (bool_decide_unpack _). vm_true.
  - apply root_not_destination.
  - intros p (file_type & Hin & ->)%gen_formats_path_set_spec.
    by rewrite parent_snoc, name_snoc.
Qed.

(** An element of a list singled out by a test is what [find] returns. *)
Lemma find_unique {A} (f : A → bool) (l : list A) (a : A) :
  a ∈ l → f a = true → (∀ x, x ∈ l → f x = true → x = a) →
  find f l = Some a.
Proof.
  intros Hin Ha Huniq. destruct (find f l) as [x|] eqn:Hfind.
  - apply find_some in Hfind as [Hx Hfx]. f_equal.
    apply Huniq; [by apply list_elem_of_In|done].
  - apply list_elem_of_In in Hin.
    pose proof (find_none _ _ Hfind _ Hin). congruence.
Qed.

(** X5. For the destinations of a root, [get_target_folder] returns
    [root/<category>] for the first category whose set holds the
    upper-cased extension, and [None] when no set holds it. (The names
    of the categories are in lower case: [lower] leaves them as they
    are.) *)
Theorem get_target_folder_spec `{Unicode} (root : Path) (extension : pystr) :
  (∀ n, n ∈ [] :: FORMATS_DICT.*1 → str_lower n = n) →
  get_target_folder (gen_formats_path_set root) extension
  = (λ file_type, root ++ [file_type.1])
      <$> find (λ file_type, bool_decide (str_upper extension ∈ file_type.2))
               FORMATS_DICT.
Proof.
  intros Hlower. unfold get_target_folder.
  destruct (find _ FORMATS_DICT) as [[cat fmts]|] eqn:Hfind; simpl.
  - apply find_some in Hfind as [Hin _].
    assert (cat ∈ FORMATS_DICT.*1) as Hcat.
    { apply list_elem_of_fmap. exists (cat, fmts). split; [done|].
      by apply list_elem_of_In. }
    apply find_unique.
    + apply elem_of_elements, gen_formats_path_set_spec. by exists cat.
    + apply bool_decide_eq_true. by rewrite name_snoc.
    + intros p (ft & Hft & ->)%elem_of_elements%gen_formats_path_set_spec
        Heq%bool_decide_eq_true.
      rewrite name_snoc in Heq.
      rewrite (Hlower ft), (Hlower cat) in Heq by (by right). by subst.
  - destruct (find _ (elements _)) as [p|] eqn:Hp; [|done]. exfalso.
    apply find_some in Hp as [Hin Heq%bool_decide_eq_true].
    apply list_elem_of_In, elem_of_elements, gen_formats_path_set_spec in Hin
      as (ft & Hft & ->).
    rewrite name_snoc in Heq.
    rewrite (Hlower ft) in Heq by (by right).
    rewrite (Hlower []) in Heq by (by left).
    subst ft. rewrite category_names in Hft.
    apply list_elem_of_In in Hft. simpl in Hft. intuition discriminate.
Qed.

Lemma get_target_folder_spec_witness :
  (∀ n, n ∈ [] :: FORMATS_DICT.*1 → str_lower (Unicode:=py_unicode) n = n)
  ∧ get_target_folder (H:=py_unicode) (gen_formats_path_set tresh) (u "TxT")
    = Some (segments ["tresh"; "documents"])
  ∧ get_target_folder (H:=py_unicode) (gen_formats_path_set tresh) (u "py")
    = None.
Proof.
  assert (∀ n, n ∈ [] :: FORMATS_DICT.*1 →
               str_lower (Unicode:=py_unicode) n = n) as Hlower.
  { intros n Hin. rewrite category_names in Hin.
    apply list_elem_of_In in Hin. simpl in Hin.
    destruct Hin as [<-|[<-|[<-|[<-|[<-|[<-|[]]]]]]]; vm_refl. }
  split; [done|]. split.
  - rewrite (get_target_folder_spec (H:=py_unicode) tresh (u "TxT") Hlower).
    vm_refl.
  - rewrite (get_target_folder_spec (H:=py_unicode) tresh (u "py") Hlower).
    vm_refl.
Defined.

End ClassifierFacts.

(** ** The phases of the pipeline *)
Module PipelineFacts.
Import PurePath CleanFolder Schedule PathFacts UniqueNameFacts MoveFacts.
Import FrameFacts ArchiveFacts MainFacts Examples.

Lemma set_unknown_world (s : State) (f : gset (list N) → gset (list N)) :
  set_world (λ _, world s) (set_unknown_formats f s) = set_unknown_formats f s.
Proof. by destruct s. Qed.

(** X6. A file of unknown format whose stem is already in normal form
    stays where it is: [handle_file] records its extension as unknown,
    submits no move and changes nothing else. *)
Theorem handle_file_in_place `{Unicode} (file_path : Path) (s : State) :
  name file_path ≠ [] → name file_path ≠ u "." →
  get_target_folder (target_pathes s) (removeprefix_dot (suffix file_path))
  = None →
  Normalize.normalize (stem file_path) = stem file_path →
  nodes (world s) !! parent file_path = Some Dir →
  handle_file file_path s
  = (Ret tt,
     set_unknown_formats
       (λ k, k ∪ {[removeprefix_dot (suffix file_path)]}) s).
Proof.
  intros Hname Hdot Hclass Hnorm Hdir. unfold handle_file. monad_unfold.
  assert (joinpath (parent file_path) (stem file_path ++ suffix file_path)
          = file_path) as Hjoin.
  { unfold stem, suffix. rewrite stem_suffix. unfold joinpath.
    rewrite decide_False by (by intros [?|?]).
    by rewrite <- name_nonempty_inv. }
  rewrite Hclass, Hnorm. simpl. unfold Fs.mkdir_exist_ok. rewrite Hdir. simpl.
  rewrite Hjoin. rewrite decide_False by (by intros ?).
  by rewrite set_unknown_world.
Qed.

Lemma handle_file_in_place_witness :
  let s := new (tree Posix [(["notes.xyz"], File 1)]) tresh in
  let file_path := segments ["tresh"; "notes.xyz"] in
  handle_file (H:=py_unicode) file_path s
  = (Ret tt, set_unknown_formats (λ k, k ∪ {[u "xyz"]}) s).
Proof.
  apply (handle_file_in_place (H:=py_unicode)
           (segments ["tresh"; "notes.xyz"])
           (new (tree Posix [(["notes.xyz"], File 1)]) tresh)).
  - by vm_compute.
  - by vm_compute.
  - vm_refl.
  - vm_refl.
  - vm_refl.
Defined.

(** X7. An empty folder of the registry is removed by [handle_folders];
    when its parent does not let it go, [rmdir] raises, the error is
    caught and the folder stays. Nothing is raised in either case. *)
Theorem handle_folder_empty `{Unicode} (fuel : nat) (folder_path : Path)
    (s : State) :
  Fs.iterdir (world s) folder_path = inr [] →
  handle_folder fuel folder_path s
  = (Ret tt,
     if decide (parent folder_path ∈ readonly (world s)) then s
     else set_world (λ w, set_nodes w (delete folder_path (nodes w))) s).
Proof.
  intros Hiter. unfold handle_folder. monad_unfold.
  destruct (RunFacts.iterdir_dir _ _ _ Hiter) as (_ & Hdir & Hempty).
  symmetry in Hempty.
  rewrite (RunFacts.iterdir_exists _ _ _ Hiter).
  simpl. rewrite Hiter. simpl.
  unfold Fs.rmdir. rewrite Hdir.
  destruct (decide (parent folder_path ∈ readonly (world s))); [done|].
  by rewrite Hempty.
Qed.

Lemma handle_folder_empty_witness :
  let s := new (tree Posix [(["old"], Dir)]) tresh in
  handle_folder (H:=py_unicode) 5 (segments ["tresh"; "old"]) s
  = (Ret tt,
     set_world (λ w, set_nodes w (delete (segments ["tresh"; "old"]) (nodes w)))
               s).
Proof.
  intros s.
  rewrite (handle_folder_empty (H:=py_unicode) 5 (segments ["tresh"; "old"]) s)
    by vm_refl.
  rewrite decide_False; [done|]. unfold s. simpl. apply not_elem_of_empty.
Defined.

(** [move_file] and the turn of [handle_folders] for one folder leave
    the registry of folders as it is. *)
Lemma move_file_folders `{Unicode} (fuel : nat) (old_path : Path) :
  ∀ (new_path : Path) (s : State),
  folders (move_file fuel old_path new_path s).2 = folders s.
Proof.
  induction fuel as [|fuel IH]; intros new_path s; [done|].
  rewrite move_file_step.
  destruct (Fs.rename (world s) old_path new_path) as [exn|w]; [|done].
  unfold mbind, M_bind.
  pose proof (gen_unique_name_cases fuel new_path s) as Hgen.
  destruct (gen_unique_name fuel new_path s) as [[p|e|] s1].
  - destruct Hgen as (-> & _). apply IH.
  - by destruct Hgen as (-> & _).
  - by subst.
Qed.

Lemma handle_folder_folders `{Unicode} (fuel : nat) (folder_path : Path)
    (s : State) :
  folders (handle_folder fuel folder_path s).2 = folders s.
Proof.
  unfold handle_folder. monad_unfold.
  destruct (Fs.exists_ (world s) folder_path) as [exn|[|]]; simpl;
    [done| |done].
  destruct (Fs.iterdir (world s) folder_path) as [exn|entries]; [done|].
  simpl. destruct (decide (entries = [])) as [Hnil|Hnil].
  - destruct (Fs.rmdir (world s) folder_path) as [exn|w]; [|done].
    by destruct (is_OSError exn).
  - destruct (decide _); [apply move_file_folders|done].
Qed.

Lemma handle_folders_loop_drains `{Unicode} (fuel : nat) (stack : list Path) :
  ∀ s s', handle_folders_loop fuel stack s = (Ret tt, s') →
          folders s' = if stack is [] then folders s else [].
Proof.
  induction stack as [|folder_path stack IH]; intros s s'; simpl.
  - by intros [= <-].
  - unfold mbind, M_bind, modify.
    pose proof (handle_folder_folders fuel folder_path
                  (set_folders (λ _, rev stack) s)) as Hf.
    destruct (handle_folder fuel folder_path _) as [[[]|e|] s1]; [|done|done].
    intros Hrest%IH. rewrite Hrest. simpl in Hf. rewrite Hf.
    destruct stack; [done|done].
Qed.

(** X8. When [handle_folders] returns, the registry of folders, the list
    [main] passed to it, is empty, and no other field of the object has
    changed. *)
Theorem handle_folders_drains `{Unicode} (fuel : nat) (s s' : State) :
  handle_folders fuel s = (Ret tt, s') →
  folders s' = [] ∧ fixed s' = fixed s.
Proof.
  intros Hrun. split.
  - unfold handle_folders in Hrun. monad_unfold.
    apply handle_folders_loop_drains in Hrun. rewrite Hrun.
    destruct (rev (folders s)) eqn:Hrev; [|done].
    apply (f_equal (@rev _)) in Hrev. by rewrite rev_involutive in Hrev.
  - pose proof (keeps_handle_folders fuel s) as Hkeeps.
    by rewrite Hrun in Hkeeps.
Qed.

Lemma handle_folders_drains_witness :
  let s := set_folders (λ _, [segments ["tresh"; "old"]])
             (new (tree Posix [(["old"], Dir)]) tresh) in
  folders (handle_folders (H:=py_unicode) 5 s).2 = [].
Proof.
  intros s.
  apply (handle_folders_drains (H:=py_unicode) 5 s
           (handle_folders (H:=py_unicode) 5 s).2).
  apply res_eta. vm_refl.
Defined.

Lemma drained_id (s : State) :
  thread_pool s = [] → set_thread_pool (λ _, []) s = s.
Proof. destruct s. simpl. by intros ->. Qed.

(** X9. When [wait_for_result] returns, the list of futures is empty,
    and a second call returns at once, with no result and no effect. *)
Theorem wait_for_result_twice `{Unicode} `{Shutil} (fuel fuel' : nat)
    (results : list unit) (s s' : State) :
  wait_for_result fuel s = (Ret results, s') →
  thread_pool s' = [] ∧ wait_for_result fuel' s' = (Ret [], s').
Proof.
  intros Hwait. apply wait_loop_returns in Hwait. split; [done|].
  unfold wait_for_result.
  destruct fuel'; simpl; monad_unfold; rewrite Hwait; simpl;
    by rewrite drained_id.
Qed.

Lemma wait_for_result_twice_witness :
  let s := (scan_dir (H:=py_unicode) tresh (new (same_name Windows) tresh)).2 in
  let s' := (wait_for_result (H:=py_unicode) (H0:=py_shutil) 20 s).2 in
  length (thread_pool s) = 2%nat
  ∧ thread_pool s' = []
  ∧ wait_for_result (H:=py_unicode) (H0:=py_shutil) 0 s' = (Ret [], s').
Proof.
  intros s s'. split; [vm_refl|].
  apply (wait_for_result_twice (H:=py_unicode) (H0:=py_shutil) 20 0 [tt; tt] s).
  apply res_eta. vm_refl.
Defined.

(** The methods of the pipeline keep the invariant of runs. *)
Section pipeline_invariant.
Context `{Unicode} `{Shutil} `{SetOrder}.
Variable root : Path.
Variables K U : gset (list N).

Lemma preserves_scan_dir (cur_dir : Path) :
  preserves (invariant root K U) (scan_dir cur_dir).
Proof.
  unfold scan_dir. apply preserves_bind.
  - apply preserves_keeps, keeps_fs_read.
  - intros entries. apply preserves_for_each. intros cur_path _.
    apply preserves_scan_entry.
Qed.

Lemma preserves_run_task (fuel : nat) (t : Task) :
  preserves (invariant root K U) (run_task fuel t).
Proof.
  destruct t as [cur_dir|old_path new_path|path]; simpl.
  - apply preserves_scan_dir.
  - apply preserves_keeps, keeps_move_file.
  - apply preserves_keeps, keeps_handle_archive.
Qed.

Lemma preserves_wait_loop (fuel : nat) :
  ∀ i result, preserves (invariant root K U) (wait_loop fuel i result).
Proof.
  induction fuel as [|fuel IH]; intros i result; simpl;
    apply preserves_get; intros s Hs;
    (destruct (thread_pool s !! i) as [t|];
     [|apply preserves_bind;
       [intros s1 Hs1; by apply invariant_drained
       |intros _; apply preserves_ret]]).
  - by intros s1 Hs1.
  - apply preserves_bind; [apply preserves_run_task|]. intros r. apply IH.
Qed.

Lemma preserves_shutdown_loop (fuel : nat) :
  ∀ i, preserves (invariant root K U) (shutdown_loop fuel i).
Proof.
  induction fuel as [|fuel IH]; intros i; simpl;
    apply preserves_get; intros s Hs;
    (destruct (thread_pool s !! i) as [t|]; [|apply preserves_ret]).
  - by intros s1 Hs1.
  - apply preserves_bind; [|intros _; apply IH].
    intros s1 Hs1. unfold try_except.
    pose proof (preserves_run_task fuel t s1 Hs1) as Hrun.
    by destruct (run_task fuel t s1) as [[[]|e|] s2].
Qed.

Lemma preserves_run (fuel : nat) : preserves (invariant root K U) (run fuel).
Proof.
  unfold run. apply preserves_get. intros s Hs.
  apply preserves_bind; [apply preserves_scan_dir|]. intros _.
  apply preserves_bind; [apply preserves_wait_loop|]. intros _.
  apply preserves_bind; [apply preserves_keeps, keeps_handle_folders|].
  intros _.
  apply preserves_bind; [apply preserves_postprocessing|]. intros _.
  apply preserves_bind; [apply preserves_shutdown_loop|]. intros _.
  apply preserves_ret.
Qed.
End pipeline_invariant.

(** X10. Whatever the outcome of [main] (it returns, raises or is still
    running), in the state it has reached every extension of
    [known_formats] has a destination, no extension of [unknown_formats]
    has one, the two sets are disjoint, the destinations are still the
    five of the root, and no scan was submitted for one of them. *)
Theorem main_formats_partitioned `{Unicode} `{Shutil} `{SetOrder} (fuel : nat)
    (argv : list (list N)) (w : World) (r : Res Z) (s : State) :
  main fuel argv w = (r, Some s) →
  (∀ e, e ∈ known_formats s →
        is_Some (get_target_folder (target_pathes s) e))
  ∧ (∀ e, e ∈ unknown_formats s →
          get_target_folder (target_pathes s) e = None)
  ∧ known_formats s ∩ unknown_formats s = ∅
  ∧ target_pathes s = gen_formats_path_set (path s)
  ∧ (∀ cur_dir, scan_dir_task cur_dir ∈ thread_pool s →
                cur_dir ∉ target_pathes s).
Proof.
  unfold main. destruct argv as [|script [|working_folder argv]]; [done|done|].
  unfold init.
  destruct (Fs.exists_ w _) as [exn|[|]]; [done| |done].
  destruct (Fs.is_dir w _) as [exn|[|]]; [done| |done].
  pose proof (preserves_run (of_str working_folder) ∅ ∅ fuel
                (new w (of_str working_folder)) (new_invariant _ _)) as Hinv.
  destruct (run fuel (new w (of_str working_folder))) as [r' s'].
  intros [= -> ->]. simpl in Hinv.
  destruct Hinv as (Hroot & HT & Hpool & [Hknown Hunknown] & _).
  split_and!; [done|done| |by rewrite Hroot|done].
  apply set_eq. intros e. rewrite elem_of_intersection, elem_of_empty.
  split; [|done]. intros [[? Hin]%Hknown Hout%Hunknown]. congruence.
Qed.

Lemma main_formats_partitioned_witness :
  let s := default (new one_file tresh)
                   (main (H:=py_unicode) (H0:=py_shutil) 20 argv one_file).2 in
  main (H:=py_unicode) (H0:=py_shutil) 20 argv one_file = (Ret 0%Z, Some s)
  ∧ known_formats s ∩ unknown_formats s = ∅.
Proof.
  intros s.
  assert (main (H:=py_unicode) (H0:=py_shutil) 20 argv one_file
          = (Ret 0%Z, Some s)) as Hmain by vm_main.
  split; [done|].
  apply (main_formats_partitioned (H:=py_unicode) (H0:=py_shutil)
           20 argv one_file (Ret 0%Z) s Hmain).
Defined.

End PipelineFacts.

(** ** rename and move_file on existing destinations *)
Module RenameFacts.
Import PurePath CleanFolder PathFacts UniqueNameFacts MoveFacts Examples.

Lemma strip_prefix_Some (pre k rest : list (list N)) :
  Fs.strip_prefix pre k = Some rest ↔ k = pre ++ rest.
Proof.
  unfold Fs.strip_prefix. split.
  - destruct (decide _) as [Heq|]; [|done]. intros [= <-].
    by rewrite <- Heq at 1; rewrite take_drop.
  - intros ->. rewrite take_app_length, decide_True by done.
    by rewrite drop_app_length.
Qed.

Lemma under_app (pre rest : list (list N)) : Fs.under pre (pre ++ rest).
Proof. exists rest. by apply strip_prefix_Some. Qed.

(** The entry that is moved arrives at the new path. *)
Lemma lookup_move_subtree_new (old new : list (list N))
    (m : gmap (list (list N)) node) (v : node) :
  m !! old = Some v → Fs.move_subtree old new m !! new = Some v.
Proof.
  intros Hold. unfold Fs.move_subtree. apply lookup_union_Some_l.
  apply elem_of_list_to_map_1'.
  - intros y ([k v'] & Hin & Hg)%list_elem_of_omap. simpl in Hg.
    destruct (Fs.strip_prefix old k) as [rest|] eqn:Hrest; [|done].
    simpl in Hg. injection Hg as Hnew ->.
    apply strip_prefix_Some in Hrest.
    assert (rest = []) as ->.
    { apply (f_equal length) in Hnew. rewrite length_app in Hnew.
      destruct rest; [done|simpl in Hnew; lia]. }
    rewrite app_nil_r in Hrest. subst k.
    apply elem_of_map_to_list in Hin. congruence.
  - apply list_elem_of_omap. exists (old, v). split.
    + by apply elem_of_map_to_list.
    + simpl. rewrite (proj2 (strip_prefix_Some old old [])) by (by rewrite app_nil_r).
      simpl. by rewrite app_nil_r.
Qed.

(** What lies neither below the old path nor below the new one stays. *)
Lemma lookup_move_subtree_other (old new k : list (list N))
    (m : gmap (list (list N)) node) :
  ¬ Fs.under old k → ¬ Fs.under new k →
  Fs.move_subtree old new m !! k = m !! k.
Proof.
  intros Hold Hnew. unfold Fs.move_subtree. rewrite lookup_union_r.
  - destruct (m !! k) as [v|] eqn:Hk.
    + by apply map_lookup_filter_Some_2.
    + apply map_lookup_filter_None_2. by left.
  - apply not_elem_of_list_to_map_1.
    intros ([k' v'] & Heq & ([k0 v0] & Hin & Hg)%list_elem_of_omap)%list_elem_of_fmap.
    simpl in *. destruct (Fs.strip_prefix old k0) as [rest|]; [|done].
    simpl in Hg. injection Hg as <- <-. subst k. apply Hnew, under_app.
Qed.

(** Nothing is left at the old path. *)
Lemma lookup_move_subtree_old (old new : list (list N))
    (m : gmap (list (list N)) node) :
  ¬ Fs.under new old → Fs.move_subtree old new m !! old = None.
Proof.
  intros Hnew. unfold Fs.move_subtree. rewrite lookup_union_r.
  - apply map_lookup_filter_None_2. right. intros v _ [Hold _].
    apply Hold. simpl. rewrite <- (app_nil_r old) at 2. apply under_app.
  - apply not_elem_of_list_to_map_1.
    intros ([k' v'] & Heq & ([k0 v0] & Hin & Hg)%list_elem_of_omap)%list_elem_of_fmap.
    simpl in *. destruct (Fs.strip_prefix old k0) as [rest|]; [|done].
    simpl in Hg. injection Hg as <- <-. apply Hnew. rewrite Heq.
    apply under_app.
Qed.

(** X11. On POSIX, [move_file] onto an existing file returns at its first
    attempt: the destination now holds the content of the source, the
    source is gone, every other entry is as before, and so the content
    the destination had is lost; [gen_unique_name] is not called. *)
Theorem move_file_posix_replaces (fuel : nat) (old_path new_path : Path)
    (s : State) (c c' : N) :
  os (world s) = Posix →
  nodes (world s) !! old_path = Some (File c) →
  nodes (world s) !! new_path = Some (File c') →
  nodes (world s) !! parent new_path = Some Dir →
  parent new_path ∉ readonly (world s) →
  parent old_path ∉ readonly (world s) →
  ¬ Fs.under old_path new_path → ¬ Fs.under new_path old_path →
  ∃ s', move_file (S fuel) old_path new_path s = (Ret tt, s')
        ∧ nodes (world s') !! new_path = Some (File c)
        ∧ nodes (world s') !! old_path = None
        ∧ ∀ k, ¬ Fs.under old_path k → ¬ Fs.under new_path k →
               nodes (world s') !! k = nodes (world s) !! k.
Proof.
  intros Hos Hold Hnew Hdir Hro Hro' Hon Hno.
  assert (old_path ≠ new_path) as Hne.
  { intros ->. apply Hon. rewrite <- (app_nil_r new_path) at 2.
    apply under_app. }
  eexists. split.
  - rewrite move_file_step. unfold Fs.rename, Fs.check_parent.
    rewrite Hold, Hdir, Hnew, Hos.
    rewrite !decide_False by done. done.
  - simpl. split_and!.
    + by apply lookup_move_subtree_new.
    + by apply lookup_move_subtree_old.
    + intros k. apply lookup_move_subtree_other.
Qed.

Lemma move_file_posix_replaces_witness :
  let s := new (tree Posix [(["a.txt"], File 1); (["b.txt"], File 2)]) tresh in
  ∃ s', move_file 1 (segments ["tresh"; "a.txt"])
          (segments ["tresh"; "b.txt"]) s = (Ret tt, s')
        ∧ nodes (world s') !! segments ["tresh"; "b.txt"] = Some (File 1)
        ∧ nodes (world s') !! segments ["tresh"; "a.txt"] = None.
Proof.
  intros s.
  destruct (move_file_posix_replaces 0 (segments ["tresh"; "a.txt"])
              (segments ["tresh"; "b.txt"]) s 1 2)
    as (s' & Hmove & Hnew & Hold & _).
  - reflexivity.
  - vm_refl.
  - vm_refl.
  - vm_refl.
  - unfold s. simpl. apply not_elem_of_empty.
  - unfold s. simpl. apply not_elem_of_empty.
  - intros [rest Hrest]. by vm_compute in Hrest.
  - intros [rest Hrest]. by vm_compute in Hrest.
  - by exists s'.
Defined.

(** A path below [old] is [old] or has its parent below [old]. *)
Lemma under_parent (old k : list (list N)) :
  Fs.under old k → old = k ∨ Fs.under old (parent k).
Proof.
  intros [rest ->%strip_prefix_Some].
  destruct rest as [|x rest _] using rev_ind.
  - left. by rewrite app_nil_r.
  - right. rewrite app_assoc, parent_snoc. apply under_app.
Qed.

(** X12. When the first [rename] raises and the destination is taken
    (on Windows by any entry, on POSIX for one by a directory where the
    source is a file), [os.stat] reaches the source, every folder above
    the source exists, and [exists] raises on none of the names tried,
    [move_file] returns after moving the source to the first free name
    [stemk.ext], [k >= 1], beside the destination: every name before it
    is taken, the entry at the destination is untouched, the new name
    holds what the source held, and the source is gone. *)
Theorem move_file_first_free_name (fuel : nat) (old_path new_path : Path)
    (s : State) (v : node) (e : Exn) :
  Fs.rename (world s) old_path new_path = inl e →
  nodes (world s) !! old_path = Some v →
  Fs.stat_error (world s) old_path = None →
  (∀ p, Fs.under p old_path → is_Some (nodes (world s) !! p)) →
  is_Some (nodes (world s) !! new_path) →
  nodes (world s) !! parent new_path = Some Dir →
  parent new_path ∉ readonly (world s) →
  parent old_path ∉ readonly (world s) →
  name new_path ≠ [] → last (name new_path) ≠ Some 46 →
  ¬ Fs.under old_path (parent new_path) →
  (∀ j, (j ≤ size (nodes (world s)) + 1)%nat →
        Fs.stat_error (world s) (candidate new_path j) = None) →
  (size (nodes (world s)) + 3 ≤ fuel)%nat →
  ∃ k s', (1 ≤ k)%nat
          ∧ move_file fuel old_path new_path s = (Ret tt, s')
          ∧ (∀ j, (j < k)%nat →
                  is_Some (nodes (world s) !! candidate new_path j))
          ∧ nodes (world s) !! candidate new_path k = None
          ∧ nodes (world s') !! candidate new_path k = Some v
          ∧ nodes (world s') !! new_path = nodes (world s) !! new_path
          ∧ nodes (world s') !! old_path = None.
Proof.
  intros Hren Hold _ Hanc Hnew Hdir Hro Hro' Hname Hdot Hunder Hstat Hfuel.
  destruct fuel as [|[|fuel]]; [lia|lia|].
  destruct (gen_unique_name_least new_path Hname Hdot s (S fuel) ltac:(lia)
              Hstat)
    as (k & Hgen & _ & Hfree & Hall).
  apply exists_false in Hfree as [_ Hfree].
  assert (1 ≤ k)%nat as Hk.
  { destruct k; [|lia]. simpl in Hfree. rewrite Hfree in Hnew.
    by destruct Hnew. }
  assert (old_path ≠ candidate new_path k) as Hne.
  { intros Heq. rewrite <- Heq in Hfree. congruence. }
  assert (¬ Fs.under old_path (candidate new_path k)) as Hout.
  { intros [?|Hu]%under_parent; [done|].
    by rewrite (candidate_parent new_path) in Hu. }
  assert (¬ Fs.under (candidate new_path k) old_path) as Hin.
  { intros [x Hx]%Hanc. congruence. }
  assert (¬ Fs.under old_path new_path) as Hnew_out.
  { intros [Heq|Hu]%under_parent; [|done]. subst new_path.
    revert Hren. unfold Fs.rename, Fs.check_parent. rewrite Hold, Hdir.
    rewrite decide_False by done. rewrite decide_False by done.
    by rewrite decide_True. }
  assert (¬ Fs.under (candidate new_path k) new_path) as Hnew_out'.
  { intros [rest Hrest%strip_prefix_Some].
    assert (rest = []) as ->.
    { apply (f_equal length) in Hrest.
      rewrite (name_nonempty_inv new_path Hname) in Hrest at 1.
      destruct k as [|k]; [lia|]. unfold candidate in Hrest.
      rewrite !length_app in Hrest. simpl in Hrest.
      destruct rest; [done|simpl in Hrest; lia]. }
    rewrite app_nil_r in Hrest. rewrite <- Hrest in Hfree.
    rewrite Hfree in Hnew. by destruct Hnew. }
  exists k. eexists. split; [done|]. split.
  - rewrite move_file_step, Hren. unfold mbind, M_bind. rewrite Hgen.
    rewrite move_file_step. unfold Fs.rename, Fs.check_parent.
    rewrite Hold, (candidate_parent new_path), Hdir, Hfree.
    by rewrite !decide_False.
  - simpl. split_and!; [|done| | |].
    + intros j Hj. by apply Hall, exists_true in Hj as [_ ?].
    + by apply lookup_move_subtree_new.
    + by apply lookup_move_subtree_other.
    + by apply lookup_move_subtree_old.
Qed.

(** The conditions of X12 for a file moved onto a directory. *)
Lemma taken_by_folder_reached (j : nat) :
  let s := new (tree Posix [(["a b.txt"], File 1); (["documents"], Dir);
                            (["documents"; "a_b.txt"], Dir)]) tresh in
  (j ≤ size (nodes (world s)) + 1)%nat →
  Fs.stat_error (world s)
    (candidate (segments ["tresh"; "documents"; "a_b.txt"]) j) = None.
Proof.
  intros s Hj.
  assert (size (nodes (world s)) = 5%nat) as Hsize by vm_refl.
  rewrite Hsize in Hj. do 7 (destruct j as [|j]; [vm_refl|]). lia.
Qed.

Lemma taken_by_folder_ancestors (p : Path) :
  Fs.under p (segments ["tresh"; "a b.txt"]) →
  is_Some (nodes (tree Posix [(["a b.txt"], File 1); (["documents"], Dir);
                              (["documents"; "a_b.txt"], Dir)]) !! p).
Proof.
  intros [rest Hrest%strip_prefix_Some].
  destruct p as [|a [|b [|c p]]]; simplify_eq/=.
  - by exists Dir.
  - exists Dir. vm_refl.
  - exists (File 1). vm_refl.
Qed.

Lemma move_file_first_free_name_witness :
  let s := new (tree Posix [(["a b.txt"], File 1); (["documents"], Dir);
                            (["documents"; "a_b.txt"], Dir)]) tresh in
  let new_path := segments ["tresh"; "documents"; "a_b.txt"] in
  ∃ k s', (1 ≤ k)%nat
          ∧ move_file 10 (segments ["tresh"; "a b.txt"]) new_path s
            = (Ret tt, s')
          ∧ (∀ j, (j < k)%nat →
                  is_Some (nodes (world s) !! candidate new_path j))
          ∧ nodes (world s) !! candidate new_path k = None
          ∧ nodes (world s') !! candidate new_path k = Some (File 1)
          ∧ nodes (world s') !! new_path = nodes (world s) !! new_path
          ∧ nodes (world s') !! segments ["tresh"; "a b.txt"] = None.
Proof.
  apply (move_file_first_free_name 10 (segments ["tresh"; "a b.txt"])
           (segments ["tresh"; "documents"; "a_b.txt"]) _ (File 1)
           IsADirectoryError).
  - vm_refl.
  - vm_refl.
  - vm_refl.
  - apply taken_by_folder_ancestors.
  - exists Dir. vm_refl.
  - vm_refl.
  - simpl. apply not_elem_of_empty.
  - simpl. apply not_elem_of_empty.
  - by vm_compute.
  - by vm_compute.
  - intros [rest Hrest]. by vm_compute in Hrest.
  - intros j. apply taken_by_folder_reached.
  - vm_compute. lia.
Defined.

End RenameFacts.
